(** * The sampling engine of mcmc-visualize (src/app/simulator.tsx)

    A shallow embedding of the six MCMC kernels, the four target
    log-densities with their gradients, and the per-frame stepping loop.

    Modelling choices.
    - A JavaScript [number] is a real number ([R]); the only non-finite
      value the engine can create from finite data is [Math.log(0)],
      which is [-Infinity], so logarithms of uniform draws and the slice
      thresholds built from them live in [xreal].
    - [Math.random] reads the next entry of a tape of draws; every kernel
      is a computation in the [Rand] monad, which threads the tape and
      fails only when the tape is used up.
    - A [while]/[for] loop with a counter is a [Fixpoint] on the number of
      iterations that are left.
    - The bracket variables [L] and [R] of the source are [L] and [Rb]. *)

From Stdlib Require Import Reals Lra List ZArith Lia Bool.
Import ListNotations.
Open Scope R_scope.

(** ** Numbers *)

Inductive xreal : Type :=
| NegInf
| Fin (r : R).

Definition Rltb (a b : R) : bool := if Rlt_dec a b then true else false.
Definition Reqb (a b : R) : bool := if Req_dec_T a b then true else false.

(** [e < b] and [a > e] for a possibly infinite [e]. *)
Definition xltb (e : xreal) (b : R) : bool :=
  match e with
  | NegInf => true
  | Fin v => Rltb v b
  end.

Definition xgtb (a : R) (e : xreal) : bool := xltb e a.

(** [a + e] *)
Definition xadd (a : R) (e : xreal) : xreal :=
  match e with
  | NegInf => NegInf
  | Fin v => Fin (a + v)
  end.

(** [Math.log] on a draw of [Math.random], which lies in [0,1). *)
Definition Math_log (u : R) : xreal :=
  if Reqb u 0 then NegInf else Fin (ln u).

(** ** Interfaces *)

Inductive AlgoType : Type := rwm | mh | slice | elliptical | hitnrun | hmc.
Inductive TargetType : Type := gaussian | bimodal | donut | banana.

Record Point : Type := mkPoint { x : R; y : R }.

Record Sample : Type := mkSample { sx : R; sy : R; s_accepted : bool }.

Record Params : Type := mkParams {
  stepSize : R;
  stepsPerFrame : Z;
  hmcSteps : Z;
  hmcEpsilon : R
}.

Record Gradient : Type := mkGradient { dx : R; dy : R }.

Record StateRef : Type := mkStateRef {
  st_x : R;
  st_y : R;
  samples : list Sample;
  currentPath : option (list Point)
}.

(** What a kernel returns: [{x, y, accepted, path?}]. *)
Record StepResult : Type := mkResult {
  rx : R;
  ry : R;
  accepted : bool;
  path : option (list Point)
}.

(** [{ ...current, accepted: false }] *)
Definition rejected (current : Point) : StepResult :=
  mkResult (x current) (y current) false None.

(** ** The random source *)

Definition tape : Type := list R.
Definition Rand (A : Type) : Type := tape -> option (A * tape).

Definition ret {A : Type} (a : A) : Rand A := fun t => Some (a, t).

Definition bind {A B : Type} (c : Rand A) (k : A -> Rand B) : Rand B :=
  fun t =>
    match c t with
    | Some (a, t') => k a t'
    | None => None
    end.

Declare Scope rand_scope.
Delimit Scope rand_scope with rand.
Notation "v <- c ;; k" := (bind c (fun v => k))
  (at level 61, c at next level, right associativity) : rand_scope.
Open Scope rand_scope.

Definition Math_random : Rand R :=
  fun t =>
    match t with
    | [] => None
    | u :: t' => Some (u, t')
    end.

(** [let u = 0; while (u === 0) u = Math.random();] *)
Fixpoint nonzero_random (t : tape) : option (R * tape) :=
  match t with
  | [] => None
  | u :: t' => if Reqb u 0 then nonzero_random t' else Some (u, t')
  end.

Definition PI2 : R := PI * 2.

Definition randn : Rand R :=
  u <- nonzero_random ;;
  v <- nonzero_random ;;
  ret (sqrt (-2.0 * ln u) * cos (2.0 * PI * v)).

Definition rand (min max : R) : Rand R :=
  u <- Math_random ;;
  ret (u * (max - min) + min).

(** ** Targets *)

Definition LOG_PROBS (t : TargetType) (x y : R) : R :=
  match t with
  | gaussian => -0.5 * (x * x + y * y)
  | bimodal =>
      let p1 := exp (- ((x + 1.5) ^ 2 + (y + 1.5) ^ 2) * 2) in
      let p2 := exp (- ((x - 1.5) ^ 2 + (y - 1.5) ^ 2) * 2) in
      ln (p1 + p2 + 1e-9)
  | donut =>
      let r := sqrt (x * x + y * y) in
      -2 * ((r - 2.5) ^ 2)
  | banana =>
      let a := 1 in
      let b := 5 in
      - ((a - x) ^ 2 + b * (y - x * x) ^ 2) / 10
  end.

Definition GRADIENTS (t : TargetType) (x y : R) : Gradient :=
  match t with
  | gaussian => mkGradient (- x) (- y)
  | bimodal =>
      let e1 := exp (- ((x + 1.5) ^ 2 + (y + 1.5) ^ 2) * 2) in
      let e2 := exp (- ((x - 1.5) ^ 2 + (y - 1.5) ^ 2) * 2) in
      let sum := e1 + e2 + 1e-9 in
      let dx := (e1 * -4 * (x + 1.5) + e2 * -4 * (x - 1.5)) / sum in
      let dy := (e1 * -4 * (y + 1.5) + e2 * -4 * (y - 1.5)) / sum in
      mkGradient dx dy
  | donut =>
      let r := sqrt (x * x + y * y) + 1e-9 in
      let term := -4 * (r - 2.5) in
      mkGradient (term * (x / r)) (term * (y / r))
  | banana =>
      let b := 5 in
      let term2 := y - x * x in
      let dx := - ((2 * (x - 1) + 2 * b * term2 * (-2 * x)) / 10) in
      let dy := - ((2 * b * term2) / 10) in
      mkGradient dx dy
  end.

(** ** Kernels *)

Section Kernels.

Variable params : Params.
Variable lpFn : R -> R -> R.

Definition stepRWM (current : Point) : Rand StepResult :=
  n1 <- randn ;;
  n2 <- randn ;;
  let xNew := x current + n1 * stepSize params in
  let yNew := y current + n2 * stepSize params in
  let currentLp := lpFn (x current) (y current) in
  let newLp := lpFn xNew yNew in
  u <- Math_random ;;
  if xltb (Math_log u) (newLp - currentLp)
  then ret (mkResult xNew yNew true None)
  else ret (rejected current).

Definition mh_sigma : R := 1.5.

Definition logQ (x y : R) : R := -0.5 * (x * x + y * y) / (mh_sigma * mh_sigma).

Definition stepMH (current : Point) : Rand StepResult :=
  n1 <- randn ;;
  n2 <- randn ;;
  let xNew := n1 * mh_sigma in
  let yNew := n2 * mh_sigma in
  let currentLp := lpFn (x current) (y current) in
  let newLp := lpFn xNew yNew in
  let ratio := newLp + logQ (x current) (y current) - currentLp - logQ xNew yNew in
  u <- Math_random ;;
  if xltb (Math_log u) ratio
  then ret (mkResult xNew yNew true None)
  else ret (rejected current).

(** *** Slice sampling *)

(** [while (loop < 100 && lpFn(current.x + L*dx, current.y + L*dy) > threshold)
      { L -= params.stepSize; loop++; }], with [left] iterations to go. *)
Fixpoint slice_expand_L (left : nat) (current : Point) (threshold : xreal)
    (dx dy L : R) : R :=
  match left with
  | O => L
  | S n =>
      if xgtb (lpFn (x current + L * dx) (y current + L * dy)) threshold
      then slice_expand_L n current threshold dx dy (L - stepSize params)
      else L
  end.

Fixpoint slice_expand_R (left : nat) (current : Point) (threshold : xreal)
    (dx dy Rb : R) : R :=
  match left with
  | O => Rb
  | S n =>
      if xgtb (lpFn (x current + Rb * dx) (y current + Rb * dy)) threshold
      then slice_expand_R n current threshold dx dy (Rb + stepSize params)
      else Rb
  end.

(** The shrink loop; [None] when the loop runs to its cap without returning. *)
Fixpoint slice_shrink (left : nat) (current : Point) (threshold : xreal)
    (dx dy L Rb : R) : Rand (option StepResult) :=
  match left with
  | O => ret None
  | S n =>
      dist <- rand L Rb ;;
      let newX := x current + dist * dx in
      let newY := y current + dist * dy in
      if xgtb (lpFn newX newY) threshold
      then ret (Some (mkResult newX newY true
                  (Some [mkPoint (x current + L * dx) (y current + L * dy);
                         mkPoint (x current + Rb * dx) (y current + Rb * dy)])))
      else if Rltb dist 0
           then slice_shrink n current threshold dx dy dist Rb
           else slice_shrink n current threshold dx dy L dist
  end.

Definition stepSlice (current : Point) : Rand StepResult :=
  let currentLp := lpFn (x current) (y current) in
  u <- Math_random ;;
  let threshold := xadd currentLp (Math_log u) in
  v <- Math_random ;;
  let theta := v * PI2 in
  let dx := cos theta in
  let dy := sin theta in
  w <- Math_random ;;
  let L := - w * stepSize params in
  let Rb := L + stepSize params in
  let L := slice_expand_L 100 current threshold dx dy L in
  let Rb := slice_expand_R 100 current threshold dx dy Rb in
  r <- slice_shrink 100 current threshold dx dy L Rb ;;
  match r with
  | Some res => ret res
  | None => ret (rejected current)
  end.

(** *** Elliptical slice sampling *)

Fixpoint elliptical_loop (left : nat) (current : Point) (threshold : xreal)
    (nuX nuY theta thetaMin thetaMax : R) : Rand (option StepResult) :=
  match left with
  | O => ret None
  | S n =>
      let newX := x current * cos theta + nuX * sin theta in
      let newY := y current * cos theta + nuY * sin theta in
      if xgtb (lpFn newX newY) threshold
      then ret (Some (mkResult newX newY true None))
      else
        let thetaMin := if Rltb theta 0 then theta else thetaMin in
        let thetaMax := if Rltb theta 0 then thetaMax else theta in
        theta' <- rand thetaMin thetaMax ;;
        elliptical_loop n current threshold nuX nuY theta' thetaMin thetaMax
  end.

Definition stepElliptical (current : Point) : Rand StepResult :=
  nuX <- randn ;;
  nuY <- randn ;;
  let currentLp := lpFn (x current) (y current) in
  u <- Math_random ;;
  let threshold := xadd currentLp (Math_log u) in
  v <- Math_random ;;
  let theta := v * PI2 in
  let thetaMin := theta - PI2 in
  let thetaMax := theta in
  r <- elliptical_loop 50 current threshold nuX nuY theta thetaMin thetaMax ;;
  match r with
  | Some res => ret res
  | None => ret (rejected current)
  end.

(** *** Hit-and-run *)

Fixpoint hitnrun_expand (left : nat) (current : Point) (threshold : xreal)
    (dx dy B : R) : R :=
  match left with
  | O => B
  | S n =>
      if xgtb (lpFn (x current + B * dx) (y current + B * dy)) threshold
      then hitnrun_expand n current threshold dx dy (B * 2)
      else B
  end.

Fixpoint hitnrun_shrink (left : nat) (current : Point) (threshold : xreal)
    (dx dy L Rb : R) : Rand (option StepResult) :=
  match left with
  | O => ret None
  | S n =>
      dist <- rand L Rb ;;
      let newX := x current + dist * dx in
      let newY := y current + dist * dy in
      if xgtb (lpFn newX newY) threshold
      then ret (Some (mkResult newX newY true None))
      else if Rltb dist 0
           then hitnrun_shrink n current threshold dx dy dist Rb
           else hitnrun_shrink n current threshold dx dy L dist
  end.

Definition stepHitAndRun (current : Point) : Rand StepResult :=
  v <- Math_random ;;
  let theta := v * PI2 in
  let dx := cos theta in
  let dy := sin theta in
  let currentLp := lpFn (x current) (y current) in
  u <- Math_random ;;
  let threshold := xadd currentLp (Math_log u) in
  let L := hitnrun_expand 20 current threshold dx dy (-1.0) in
  let Rb := hitnrun_expand 20 current threshold dx dy 1.0 in
  r <- hitnrun_shrink 50 current threshold dx dy L Rb ;;
  match r with
  | Some res => ret res
  | None => ret (rejected current)
  end.

(** *** Hamiltonian Monte Carlo *)

Variable gradFn : R -> R -> Gradient.

(** The variables the leapfrog loop updates. *)
Record Leap : Type := mkLeap {
  lx : R; ly : R;
  lpx : R; lpy : R;
  lgrad : Gradient;
  trajectory : list Point
}.

(** [for (let i = 0; i < hmcSteps; i++) { ... }], entered with the loop
    variable at [i] and [left] iterations to go. *)
Fixpoint hmc_loop (left : nat) (i : Z) (s : Leap) : Leap :=
  match left with
  | O => s
  | S n =>
      let x := lx s + hmcEpsilon params * lpx s in
      let y := ly s + hmcEpsilon params * lpy s in
      let trajectory := trajectory s ++ [mkPoint x y] in
      let grad := gradFn x y in
      let px := if Z.eqb i (hmcSteps params - 1) then lpx s
                else lpx s + hmcEpsilon params * dx grad in
      let py := if Z.eqb i (hmcSteps params - 1) then lpy s
                else lpy s + hmcEpsilon params * dy grad in
      hmc_loop n (i + 1)%Z (mkLeap x y px py grad trajectory)
  end.

Definition stepHMC (current : Point) : Rand StepResult :=
  px <- randn ;;
  py <- randn ;;
  let initialPx := px in
  let initialPy := py in
  let x0 := x current in
  let y0 := y current in
  let trajectory0 := [mkPoint x0 y0] in
  let grad := gradFn x0 y0 in
  let px := px + 0.5 * hmcEpsilon params * dx grad in
  let py := py + 0.5 * hmcEpsilon params * dy grad in
  let s := hmc_loop (Z.to_nat (hmcSteps params)) 0%Z
             (mkLeap x0 y0 px py grad trajectory0) in
  let px := lpx s + 0.5 * hmcEpsilon params * dx (lgrad s) in
  let py := lpy s + 0.5 * hmcEpsilon params * dy (lgrad s) in
  let currentU := - lpFn (x current) (y current) in
  let currentK := 0.5 * (initialPx ^ 2 + initialPy ^ 2) in
  let proposedU := - lpFn (lx s) (ly s) in
  let proposedK := 0.5 * (px ^ 2 + py ^ 2) in
  let currentH := currentU + currentK in
  let proposedH := proposedU + proposedK in
  u <- Math_random ;;
  if xltb (Math_log u) (currentH - proposedH)
  then ret (mkResult (lx s) (ly s) true (Some (trajectory s)))
  else ret (mkResult (x current) (y current) false (Some (trajectory s))).

End Kernels.

(** ** The stepping loop of [animate] *)

Definition run_kernel (params : Params) (algo : AlgoType) (target : TargetType)
    (curr : Point) : Rand StepResult :=
  let lpFn := LOG_PROBS target in
  let gradFn := GRADIENTS target in
  match algo with
  | rwm => stepRWM params lpFn curr
  | mh => stepMH lpFn curr
  | slice => stepSlice params lpFn curr
  | elliptical => stepElliptical lpFn curr
  | hitnrun => stepHitAndRun lpFn curr
  | hmc => stepHMC params lpFn gradFn curr
  end.

(** [samples.push(s); if (samples.length > 2000) samples.shift();] *)
Definition push_sample (samples : list Sample) (s : Sample) : list Sample :=
  let samples := samples ++ [s] in
  if (2000 <? length samples)%nat then tl samples else samples.

(** One iteration of the body of the [for] loop: the state and the tally of
    accepted steps. *)
Definition animate_body (params : Params) (algo : AlgoType) (target : TargetType)
    (sa : StateRef * Z) : Rand (StateRef * Z) :=
  let (st, accepts) := sa in
  let curr := mkPoint (st_x st) (st_y st) in
  result <- run_kernel params algo target curr ;;
  let accepts := if accepted result then (accepts + 1)%Z else accepts in
  ret (mkStateRef (rx result) (ry result)
         (push_sample (samples st) (mkSample (rx result) (ry result) (accepted result)))
         (path result),
       accepts).

Fixpoint animate_iter (left : nat) (params : Params) (algo : AlgoType)
    (target : TargetType) (sa : StateRef * Z) : Rand (StateRef * Z) :=
  match left with
  | O => ret sa
  | S n =>
      sa' <- animate_body params algo target sa ;;
      animate_iter n params algo target sa'
  end.

(** [let accepts = 0; for (let k = 0; k < params.stepsPerFrame; k++) { ... }] *)
Definition animate_loop (params : Params) (algo : AlgoType) (target : TargetType)
    (st : StateRef) : Rand (StateRef * Z) :=
  animate_iter (Z.to_nat (stepsPerFrame params)) params algo target (st, 0%Z).

(** [reset] *)
Definition reset_state : StateRef := mkStateRef 0.1 0.1 [] None.

(** ** Canvas geometry and the density image *)

(** [const scale = width / 10; const offset = width / 2;] *)
Definition canvas_scale (width : R) : R := width / 10.
Definition canvas_offset (width : R) : R := width / 2.

(** [toCanvas] of [animate]: [{ cx: x * scale + offset, cy: -y * scale + offset }] *)
Definition toCanvas (width x y : R) : R * R :=
  (x * canvas_scale width + canvas_offset width,
   - y * canvas_scale width + canvas_offset width).

(** The point of the plane that [drawBackground] evaluates for the pixel
    [(px, py)]: [x = (px - offset) / scale], [mathY = -((py - offset) / scale)]. *)
Definition pixel_point (width px py : R) : R * R :=
  ((px - canvas_offset width) / canvas_scale width,
   - ((py - canvas_offset width) / canvas_scale width)).

(** [Math.floor] *)
Definition Math_floor (r : R) : R := IZR (Int_part r).

(** [Math.min(255, Math.floor(p * 2000))] with [p = Math.exp(lp)] *)
Definition pixel_intensity (target : TargetType) (x y : R) : R :=
  let lp := LOG_PROBS target x y in
  let p := exp lp in
  Rmin 255 (Math_floor (p * 2000)).

(** [const index = (py * width + px) * 4;] *)
Definition pixel_index (width px py : Z) : Z := ((py * width + px) * 4)%Z.

(** The four values written at [index .. index + 3]. *)
Definition pixel_rgba (intensity : R) : R * R * R * R :=
  (30 + intensity * 0.5, 40 + intensity * 0.8, 50 + intensity, 255).

(** ** The integrator of [stepHMC] *)

(** Lines 327-346 of [stepHMC]: from the position [(x0, y0)] and the drawn
    momentum [(px0, py0)] to the proposed position and the final momentum. *)
Definition hmc_integrate (params : Params) (gradFn : R -> R -> Gradient)
    (x0 y0 px0 py0 : R) : (R * R) * (R * R) :=
  let grad := gradFn x0 y0 in
  let px := px0 + 0.5 * hmcEpsilon params * dx grad in
  let py := py0 + 0.5 * hmcEpsilon params * dy grad in
  let s := hmc_loop params gradFn (Z.to_nat (hmcSteps params)) 0%Z
             (mkLeap x0 y0 px py grad [mkPoint x0 y0]) in
  let px := lpx s + 0.5 * hmcEpsilon params * dx (lgrad s) in
  let py := lpy s + 0.5 * hmcEpsilon params * dy (lgrad s) in
  ((lx s, ly s), (px, py)).

(** * Vocabulary of the properties *)

(** ** Random draws *)

(** An event on a uniform draw of [[0,1)] that is the initial segment
    [[0,p)] has probability [p]. *)
Definition uniform_prob (E : R -> Prop) (p : R) : Prop :=
  0 <= p <= 1 /\ forall u, 0 <= u < 1 -> (E u <-> u < p).

(** [pre] is a stretch of tape that one call of [randn] reads completely,
    returning the normal variate [n]. *)
Definition draws_normal (pre : tape) (n : R) : Prop :=
  forall t, randn (pre ++ t) = Some (n, t).

(** ** Kernels *)

(** The log-density of the fixed proposal, two independent normals of
    standard deviation 1.5, with its normalising constant. *)
Definition logq_normal (x y : R) : R :=
  ln (/ (2 * PI * (1.5 * 1.5))) - (x * x + y * y) / (2 * (1.5 * 1.5)).

(** The leapfrog scheme of the HMC kernel. *)
Section Leapfrog.

Variable eps : R.
Variable gradFn : R -> R -> Gradient.

(** The leapfrog scheme in words: [leap q p k] is the position and the
    momentum after [k] full position updates, each followed by a full
    momentum update with the gradient at the new position, from position
    [q] and (half-stepped) momentum [p]. *)
Fixpoint leap (q p : R * R) (k : nat) : (R * R) * (R * R) :=
  match k with
  | O => (q, p)
  | S k' =>
      let '(q', p') := leap q p k' in
      let q'' := (fst q' + eps * fst p', snd q' + eps * snd p') in
      let g := gradFn (fst q'') (snd q'') in
      (q'', (fst p' + eps * dx g, snd p' + eps * dy g))
  end.

Definition leap_pos (q p : R * R) (k : nat) : Point :=
  mkPoint (fst (fst (leap q p k))) (snd (fst (leap q p k))).

(** The momentum with which the [S k]-th position update is made. *)
Definition leap_mom (q p : R * R) (k : nat) : R * R := snd (leap q p k).

(** The half step with the gradient at position [q]. *)
Definition half_kick (q p : R * R) : R * R :=
  let g := gradFn (fst q) (snd q) in
  (fst p + 0.5 * eps * dx g, snd p + 0.5 * eps * dy g).

End Leapfrog.

(** [H = -logp + 0.5 * |p|^2] *)
Definition hamiltonian (lpFn : R -> R -> R) (q : Point) (p : R * R) : R :=
  - lpFn (x q) (y q) + 0.5 * (fst p ^ 2 + snd p ^ 2).

(** The kernel's result is the current point, marked as rejected. *)
Definition unmoved (current : Point) (res : StepResult) : Prop :=
  rx res = x current /\ ry res = y current /\ accepted res = false.

(** Parameters with a step size of 1, for the concrete runs. *)
Definition unit_step : Params := mkParams 1 1 10 0.1.

(** ** Targets *)

(** [f] has derivative [l] at [a]. *)
Definition has_derivative (f : R -> R) (a l : R) : Prop := derivable_pt_lim f a l.

(** [g] is the gradient of [f] at [(a, b)]: its two partial derivatives. *)
Definition is_gradient (f : R -> R -> R) (a b : R) (g : Gradient) : Prop :=
  has_derivative (fun t => f t b) a (dx g)
  /\ has_derivative (fun t => f a t) b (dy g).

(** The gradient of the donut log-density away from the origin. *)
Definition donut_gradient (a b : R) : Gradient :=
  let r := sqrt (a * a + b * b) in
  let term := -4 * (r - 2.5) in
  mkGradient (term * (a / r)) (term * (b / r)).

(** The closed forms of the catalog. *)
Definition gaussian_closed_form (x y : R) : R := -0.5 * (x ^ 2 + y ^ 2).

Definition donut_closed_form (x y : R) : R :=
  let r := sqrt (x ^ 2 + y ^ 2) in
  -2 * (r - 2.5) ^ 2.

Definition banana_closed_form (x y : R) : R :=
  - ((1 - x) ^ 2 + 5 * (y - x ^ 2) ^ 2) / 10.

(** The two component densities of the mixture, centred at [(-1.5, -1.5)]
    and [(1.5, 1.5)]. *)
Definition bimodal_component (cx cy x y : R) : R :=
  exp (-2 * ((x - cx) ^ 2 + (y - cy) ^ 2)).

Definition bimodal_closed_form (x y : R) : R :=
  ln (bimodal_component (-1.5) (-1.5) x y + bimodal_component 1.5 1.5 x y).

(** ** The chain *)

(** [{ x: result.x, y: result.y, accepted: result.accepted }] *)
Definition to_sample (r : StepResult) : Sample :=
  mkSample (rx r) (ry r) (accepted r).

(** The chain in words: [n] kernel steps, each from the point the step
    before returned. *)
Fixpoint chain (n : nat) (params : Params) (algo : AlgoType) (target : TargetType)
    (pos : Point) : Rand (list StepResult) :=
  match n with
  | O => ret []
  | S k =>
      r <- run_kernel params algo target pos ;;
      rs <- chain k params algo target (mkPoint (rx r) (ry r)) ;;
      ret (r :: rs)
  end.

(** The [k] most recent entries of a history, in order. *)
Definition lastn {A : Type} (k : nat) (l : list A) : list A :=
  skipn (length l - k) l.

(** The position is that of the newest sample. *)
Definition at_newest (st : StateRef) : Prop :=
  exists front s, samples st = front ++ [s] /\ sx s = st_x st /\ sy s = st_y st.

(** ** Further vocabulary *)

(** Every draw on the tape is a value of [Math.random]: in [[0, 1)]. *)
Definition uniform_draws (t : tape) : Prop := Forall (fun u => 0 <= u < 1) t.

(** The draws of a tape that are not [0]. *)
Definition nonzero_draws (t : tape) : tape := filter (fun u => negb (Reqb u 0)) t.

(** How many of the results were accepted. *)
Definition accepted_count (rs : list StepResult) : Z :=
  Z.of_nat (length (filter accepted rs)).



(** The bracket of a line search after the candidates of the draws [us]
    have been refused: a candidate [dist < 0] becomes the left end, any other
    the right end. *)
Fixpoint shrink_bracket (L Rb : R) (us : list R) : R * R :=
  match us with
  | [] => (L, Rb)
  | u :: us' =>
      let dist := u * (Rb - L) + L in
      if Rltb dist 0 then shrink_bracket dist Rb us' else shrink_bracket L dist us'
  end.

(** * Properties *)

(** ** Comparisons and logarithms *)

Lemma Rltb_true (a b : R) : Rltb a b = true <-> a < b.
Proof.
  unfold Rltb. destruct (Rlt_dec a b); split; intros; try easy.
Qed.

Lemma Rltb_false (a b : R) : Rltb a b = false <-> b <= a.
Proof.
  unfold Rltb. destruct (Rlt_dec a b); split; intros; try easy; lra.
Qed.

Lemma Reqb_true (a b : R) : Reqb a b = true <-> a = b.
Proof.
  unfold Reqb. destruct (Req_dec_T a b); split; intros; try easy.
Qed.

Lemma Reqb_false (a b : R) : Reqb a b = false <-> a <> b.
Proof.
  unfold Reqb. destruct (Req_dec_T a b); split; intros; try easy.
Qed.

Lemma Reqb_refl (a : R) : Reqb a a = true.
Proof. now apply Reqb_true. Qed.

Lemma Math_log_0 : Math_log 0 = NegInf.
Proof. unfold Math_log. now rewrite Reqb_refl. Qed.

Lemma Math_log_pos (u : R) : u <> 0 -> Math_log u = Fin (ln u).
Proof.
  intros H. unfold Math_log. apply Reqb_false in H. now rewrite H.
Qed.

(** For a draw [u] of [[0,1)], [Math.log(u) < d] holds exactly when
    [u < min(1, exp d)]. *)
Lemma log_draw_lt (u d : R) :
  0 <= u < 1 -> (xltb (Math_log u) d = true <-> u < Rmin 1 (exp d)).
Proof.
  intros [H0 H1].
  assert (Hexp : 0 < exp d) by apply exp_pos.
  destruct (Req_dec_T u 0) as [-> | Hu].
  - rewrite Math_log_0. simpl. split; [intros _ | reflexivity].
    apply Rmin_glb_lt; lra.
  - rewrite (Math_log_pos u Hu). simpl. rewrite Rltb_true.
    assert (Hpos : 0 < u) by lra.
    split; intros H.
    + apply Rmin_glb_lt; [exact H1 |].
      rewrite <- (exp_ln u Hpos). now apply exp_increasing.
    + apply Rlt_le_trans with (r3 := exp d) in H; [| apply Rmin_r].
      rewrite <- (ln_exp d). now apply ln_increasing.
Qed.

Lemma uniform_prob_unique (E : R -> Prop) (p q : R) :
  uniform_prob E p -> uniform_prob E q -> p = q.
Proof.
  intros [[Hp0 Hp1] Hp] [[Hq0 Hq1] Hq].
  destruct (Rtotal_order p q) as [Hlt | [Heq | Hgt]]; [exfalso | exact Heq | exfalso].
  - assert (Hm : 0 <= (p + q) / 2 < 1) by lra.
    pose proof (Hp _ Hm) as H1. pose proof (Hq _ Hm) as H2.
    assert ((p + q) / 2 < p) by (apply H1, H2; lra). lra.
  - assert (Hm : 0 <= (p + q) / 2 < 1) by lra.
    pose proof (Hp _ Hm) as H1. pose proof (Hq _ Hm) as H2.
    assert ((p + q) / 2 < q) by (apply H2, H1; lra). lra.
Qed.

Lemma accept_prob (d : R) :
  uniform_prob (fun u => xltb (Math_log u) d = true) (Rmin 1 (exp d)).
Proof.
  split.
  - pose proof (exp_pos d). split.
    + apply Rmin_glb; lra.
    + apply Rmin_l.
  - intros u Hu. now apply log_draw_lt.
Qed.

(** ** The random source *)

Lemma bind_Some {A B : Type} (c : Rand A) (k : A -> Rand B) (t t' : tape) (a : A) :
  c t = Some (a, t') -> bind c k t = k a t'.
Proof. intros H. unfold bind. now rewrite H. Qed.

Lemma bind_inv {A B : Type} (c : Rand A) (k : A -> Rand B) (t t' : tape) (b : B) :
  bind c k t = Some (b, t') ->
  exists a t1, c t = Some (a, t1) /\ k a t1 = Some (b, t').
Proof.
  unfold bind. destruct (c t) as [[a t1] |]; [| discriminate].
  intros H. now exists a, t1.
Qed.

Lemma rand_cons (lo hi u : R) (t : tape) :
  rand lo hi (u :: t) = Some (u * (hi - lo) + lo, t).
Proof. reflexivity. Qed.

Lemma nonzero_random_prefix (t t' : tape) (u : R) :
  nonzero_random t = Some (u, t') ->
  exists pre, t = pre ++ t' /\ forall t'', nonzero_random (pre ++ t'') = Some (u, t'').
Proof.
  induction t as [| a t IH]; simpl; [discriminate |].
  destruct (Reqb a 0) eqn:Ha.
  - intros H. destruct (IH H) as (pre & -> & Hpre).
    exists (a :: pre). split; [reflexivity |].
    intros t''. simpl. rewrite Ha. apply Hpre.
  - intros H. injection H as -> ->.
    exists [u]. split; [reflexivity |].
    intros t''. simpl. now rewrite Ha.
Qed.

(** Every call of [randn] that returns reads such a stretch. *)
Lemma randn_draws (t t' : tape) (n : R) :
  randn t = Some (n, t') -> exists pre, t = pre ++ t' /\ draws_normal pre n.
Proof.
  unfold randn. intros H.
  apply bind_inv in H as (u & t1 & Hu & H).
  apply bind_inv in H as (v & t2 & Hv & H).
  unfold ret in H. injection H as <- <-.
  apply nonzero_random_prefix in Hu as (p1 & -> & Hp1).
  apply nonzero_random_prefix in Hv as (p2 & -> & Hp2).
  exists (p1 ++ p2). split; [now rewrite app_assoc |].
  intros t. unfold randn. rewrite <- app_assoc.
  rewrite (bind_Some _ _ _ _ _ (Hp1 _)).
  now rewrite (bind_Some _ _ _ _ _ (Hp2 _)).
Qed.

Lemma draws_normal_nonzero (u v : R) :
  u <> 0 -> v <> 0 ->
  draws_normal [u; v] (sqrt (-2.0 * ln u) * cos (2.0 * PI * v)).
Proof.
  intros Hu Hv t. apply Reqb_false in Hu, Hv.
  unfold randn, bind. simpl. rewrite Hu. simpl. now rewrite Hv.
Qed.

Lemma nonzero_random_spec (t : tape) :
  match nonzero_draws t with
  | u :: _ => exists t', nonzero_random t = Some (u, t')
                         /\ nonzero_draws t = u :: nonzero_draws t'
  | [] => nonzero_random t = None
  end.
Proof.
  induction t as [| a t IH]; [reflexivity |].
  cbn [nonzero_draws filter nonzero_random]. fold (nonzero_draws t).
  destruct (Reqb a 0); cbn [negb].
  - exact IH.
  - now exists t.
Qed.

(** [randn] in terms of the draws that are not [0]. *)
Lemma randn_nonzero_spec (t : tape) :
  match nonzero_draws t with
  | u :: v :: _ =>
      exists t', randn t = Some (sqrt (-2.0 * ln u) * cos (2.0 * PI * v), t')
                 /\ nonzero_draws t = u :: v :: nonzero_draws t'
  | _ => randn t = None
  end.
Proof.
  pose proof (nonzero_random_spec t) as H1. unfold randn, bind.
  destruct (nonzero_draws t) as [| u l] eqn:E1.
  - now rewrite H1.
  - destruct H1 as (t1 & -> & Hl). injection Hl as Hl.
    pose proof (nonzero_random_spec t1) as H2. rewrite <- Hl in H2.
    destruct l as [| v l'].
    + now rewrite H2.
    + destruct H2 as (t2 & -> & Hl'). exists t2. split; [reflexivity |].
      now rewrite Hl'.
Qed.

Lemma nonzero_random_zeros (k : nat) (u : R) (t : tape) :
  u <> 0 -> nonzero_random (repeat 0 k ++ u :: t) = Some (u, t).
Proof.
  intros Hu. induction k as [| k IH]; cbn [repeat app nonzero_random].
  - apply Reqb_false in Hu. now rewrite Hu.
  - now rewrite Reqb_refl.
Qed.

Lemma nonzero_random_inv (t t' : tape) (u : R) :
  nonzero_random t = Some (u, t') ->
  exists k, u <> 0 /\ t = repeat 0 k ++ u :: t'.
Proof.
  induction t as [| a t IH]; cbn [nonzero_random]; [discriminate |].
  destruct (Reqb a 0) eqn:Ha.
  - intros H. destruct (IH H) as (k & Hu & ->).
    apply Reqb_true in Ha. subst a. now exists (S k).
  - intros H. injection H as -> ->. apply Reqb_false in Ha. now exists 0%nat.
Qed.

(** ** Random Walk Metropolis *)

(** C1. From [(x,y)] the RWM kernel proposes [x' = x + sigma*n1],
    [y' = y + sigma*n2] for the two normal variates it draws, and accepts
    exactly when [log u < lpFn(x',y') - lpFn(x,y)] for the next uniform draw
    [u]; the accepting draws are those below [min(1, exp(lpFn(x',y') -
    lpFn(x,y)))], so that number is the acceptance probability, and it
    depends on the proposal only through the two log-densities; a rejected
    step returns the current point with [accepted = false]. *)
Theorem stepRWM_metropolis (params : Params) (lpFn : R -> R -> R)
    (current : Point) (pre1 pre2 : tape) (n1 n2 : R) :
  draws_normal pre1 n1 ->
  draws_normal pre2 n2 ->
  let x' := x current + stepSize params * n1 in
  let y' := y current + stepSize params * n2 in
  let d := lpFn x' y' - lpFn (x current) (y current) in
  let result (u : R) :=
    if xltb (Math_log u) d
    then mkResult x' y' true None
    else mkResult (x current) (y current) false None in
  (forall u rest,
     stepRWM params lpFn current (pre1 ++ pre2 ++ u :: rest) = Some (result u, rest))
  /\ (forall u, accepted (result u) = true <-> xltb (Math_log u) d = true)
  /\ uniform_prob (fun u => accepted (result u) = true) (Rmin 1 (exp d)).
Proof.
  intros H1 H2 x' y' d result.
  assert (Hacc : forall u, accepted (result u) = true <-> xltb (Math_log u) d = true).
  { intros u. unfold result. destruct (xltb (Math_log u) d); simpl; tauto. }
  split; [| split; [exact Hacc |]].
  - intros u rest. unfold stepRWM.
    rewrite (bind_Some _ _ _ _ _ (H1 _)).
    rewrite (bind_Some _ _ _ _ _ (H2 _)).
    unfold bind. simpl. unfold result, d, x', y', rejected.
    replace (x current + n1 * stepSize params)
      with (x current + stepSize params * n1) by ring.
    replace (y current + n2 * stepSize params)
      with (y current + stepSize params * n2) by ring.
    now destruct (xltb _ _).
  - destruct (accept_prob d) as [Hr Hp]. split; [exact Hr |].
    intros u Hu. rewrite Hacc. now apply Hp.
Qed.

Lemma stepRWM_metropolis_witness :
  draws_normal [1/2; 1/4] (sqrt (-2.0 * ln (1/2)) * cos (2.0 * PI * (1/4)))
  /\ uniform_prob
       (fun u =>
          xltb (Math_log u)
            (LOG_PROBS gaussian
               (0.1 + 0.5 * (sqrt (-2.0 * ln (1/2)) * cos (2.0 * PI * (1/4))))
               (0.1 + 0.5 * (sqrt (-2.0 * ln (1/2)) * cos (2.0 * PI * (1/4))))
             - LOG_PROBS gaussian 0.1 0.1) = true)
       (Rmin 1 (exp (LOG_PROBS gaussian
               (0.1 + 0.5 * (sqrt (-2.0 * ln (1/2)) * cos (2.0 * PI * (1/4))))
               (0.1 + 0.5 * (sqrt (-2.0 * ln (1/2)) * cos (2.0 * PI * (1/4))))
             - LOG_PROBS gaussian 0.1 0.1))).
Proof.
  assert (H : draws_normal [1/2; 1/4]
                (sqrt (-2.0 * ln (1/2)) * cos (2.0 * PI * (1/4)))).
  { apply draws_normal_nonzero; lra. }
  split; [exact H |].
  destruct (stepRWM_metropolis (mkParams 0.5 1 10 0.1) (LOG_PROBS gaussian)
              (mkPoint 0.1 0.1) _ _ _ _ H H) as (_ & Hacc & [Hr Hp]).
  split; [exact Hr |].
  intros u Hu. rewrite <- (Hp u Hu). symmetry. apply Hacc.
Defined.

(** ** Independent Metropolis-Hastings *)

Lemma logQ_unnormalised (x y : R) :
  logq_normal x y = ln (/ (2 * PI * (1.5 * 1.5))) + logQ x y.
Proof. unfold logq_normal, logQ, mh_sigma. lra. Qed.

(** C2. The independent MH kernel proposes [(1.5*n1, 1.5*n2)] for the two
    normal variates it draws, whatever the current point and the parameters
    are, and accepts exactly when
    [log u < (logp(x') + logq(current)) - (logp(current) + logq(x'))] for the
    next uniform draw [u], with [logq] the normalised log-density of the
    proposal; a rejected step returns the current point with
    [accepted = false]. *)
Theorem stepMH_independent (lpFn : R -> R -> R) (current : Point)
    (pre1 pre2 : tape) (n1 n2 : R) :
  draws_normal pre1 n1 ->
  draws_normal pre2 n2 ->
  let x' := 1.5 * n1 in
  let y' := 1.5 * n2 in
  let ratio :=
    (lpFn x' y' + logq_normal (x current) (y current))
    - (lpFn (x current) (y current) + logq_normal x' y') in
  forall u rest,
    stepMH lpFn current (pre1 ++ pre2 ++ u :: rest) =
    Some (if xltb (Math_log u) ratio
          then mkResult x' y' true None
          else mkResult (x current) (y current) false None, rest).
Proof.
  intros H1 H2 x' y' ratio u rest. unfold stepMH.
  rewrite (bind_Some _ _ _ _ _ (H1 _)).
  rewrite (bind_Some _ _ _ _ _ (H2 _)).
  unfold bind. simpl. unfold mh_sigma at 1 2 3 4 5 6.
  replace (n1 * 1.5) with x' by (unfold x'; ring).
  replace (n2 * 1.5) with y' by (unfold y'; ring).
  replace (lpFn x' y' + logQ (x current) (y current)
           - lpFn (x current) (y current) - logQ x' y') with ratio.
  - unfold rejected. now destruct (xltb _ _).
  - unfold ratio. rewrite !logQ_unnormalised. ring.
Qed.

Lemma stepMH_independent_witness :
  stepMH (LOG_PROBS banana) (mkPoint 0.1 0.1) ([1/2; 1/4] ++ [1/2; 1/4] ++ [0]) =
  Some (mkResult (1.5 * (sqrt (-2.0 * ln (1/2)) * cos (2.0 * PI * (1/4))))
                 (1.5 * (sqrt (-2.0 * ln (1/2)) * cos (2.0 * PI * (1/4))))
                 true None, []).
Proof.
  assert (H : draws_normal [1/2; 1/4]
                (sqrt (-2.0 * ln (1/2)) * cos (2.0 * PI * (1/4)))).
  { apply draws_normal_nonzero; lra. }
  rewrite (stepMH_independent (LOG_PROBS banana) (mkPoint 0.1 0.1) _ _ _ _ H H 0 []).
  now rewrite Math_log_0.
Defined.

(** ** Hamiltonian Monte Carlo *)

Lemma leap_pos_S eps gradFn q p k :
  leap_pos eps gradFn q p (S k) =
  mkPoint (x (leap_pos eps gradFn q p k) + eps * fst (leap_mom eps gradFn q p k))
          (y (leap_pos eps gradFn q p k) + eps * snd (leap_mom eps gradFn q p k)).
Proof.
  unfold leap_pos, leap_mom. simpl.
  destruct (leap eps gradFn q p k) as [[qx qy] [mx my]]. reflexivity.
Qed.

Lemma leap_mom_S eps gradFn q p k :
  leap_mom eps gradFn q p (S k) =
  (fst (leap_mom eps gradFn q p k)
     + eps * dx (gradFn (x (leap_pos eps gradFn q p (S k)))
                        (y (leap_pos eps gradFn q p (S k)))),
   snd (leap_mom eps gradFn q p k)
     + eps * dy (gradFn (x (leap_pos eps gradFn q p (S k)))
                        (y (leap_pos eps gradFn q p (S k))))).
Proof.
  unfold leap_pos, leap_mom. simpl.
  destruct (leap eps gradFn q p k) as [[qx qy] [mx my]]. reflexivity.
Qed.

(** The loop of [stepHMC], entered at iteration [i] with [S n] iterations to
    go of [hmcSteps = i + S n] in all, from the state the scheme is in after
    [i] position updates. *)
Lemma hmc_loop_leap (params : Params) (gradFn : R -> R -> Gradient)
    (q p : R * R) (n i : nat) (g : Gradient) (traj : list Point) :
  hmcSteps params = Z.of_nat (i + S n) ->
  let eps := hmcEpsilon params in
  let pos := leap_pos eps gradFn q p in
  let mom := leap_mom eps gradFn q p in
  hmc_loop params gradFn (S n) (Z.of_nat i)
    (mkLeap (x (pos i)) (y (pos i)) (fst (mom i)) (snd (mom i)) g traj) =
  mkLeap (x (pos (i + S n)%nat)) (y (pos (i + S n)%nat))
         (fst (mom (i + n)%nat)) (snd (mom (i + n)%nat))
         (gradFn (x (pos (i + S n)%nat)) (y (pos (i + S n)%nat)))
         (traj ++ map pos (seq (S i) (S n))).
Proof.
  intros HL eps pos mom. revert i g traj HL.
  induction n as [| n IH]; intros i g traj HL.
  - cbn [hmc_loop]. cbn [lx ly lpx lpy].
    replace (Z.of_nat i =? hmcSteps params - 1)%Z with true
      by (symmetry; apply Z.eqb_eq; lia).
    replace (i + 1)%nat with (S i) by lia. rewrite Nat.add_0_r.
    pose proof (leap_pos_S eps gradFn q p i) as Hp.
    fold pos mom in Hp. fold eps.
    cbn [trajectory map seq]. rewrite Hp. reflexivity.
  - change (hmc_loop params gradFn (S (S n)) (Z.of_nat i) ?s)
      with (let s0 := s in
            hmc_loop params gradFn (S n) (Z.of_nat i + 1)%Z
              (let x := lx s0 + hmcEpsilon params * lpx s0 in
               let y := ly s0 + hmcEpsilon params * lpy s0 in
               let grad := gradFn x y in
               mkLeap x y
                 (if Z.eqb (Z.of_nat i) (hmcSteps params - 1) then lpx s0
                  else lpx s0 + hmcEpsilon params * dx grad)
                 (if Z.eqb (Z.of_nat i) (hmcSteps params - 1) then lpy s0
                  else lpy s0 + hmcEpsilon params * dy grad)
                 grad (trajectory s0 ++ [mkPoint x y]))).
    cbn [lx ly lpx lpy trajectory]. cbv zeta.
    replace (Z.of_nat i =? hmcSteps params - 1)%Z with false
      by (symmetry; apply Z.eqb_neq; lia).
    replace (Z.of_nat i + 1)%Z with (Z.of_nat (S i)) by lia.
    pose proof (leap_pos_S eps gradFn q p i) as Hp.
    pose proof (leap_mom_S eps gradFn q p i) as Hm.
    fold pos mom in Hp, Hm. fold eps.
    assert (Hx : x (pos i) + eps * fst (mom i) = x (pos (S i)))
      by (rewrite Hp; reflexivity).
    assert (Hy : y (pos i) + eps * snd (mom i) = y (pos (S i)))
      by (rewrite Hp; reflexivity).
    rewrite Hx, Hy.
    assert (Hmx : fst (mom i) + eps * dx (gradFn (x (pos (S i))) (y (pos (S i))))
                  = fst (mom (S i))) by (rewrite Hm; reflexivity).
    assert (Hmy : snd (mom i) + eps * dy (gradFn (x (pos (S i))) (y (pos (S i))))
                  = snd (mom (S i))) by (rewrite Hm; reflexivity).
    rewrite Hmx, Hmy.
    rewrite (IH (S i)) by lia.
    replace (S i + S n)%nat with (i + S (S n))%nat by lia.
    replace (S i + n)%nat with (i + S n)%nat by lia.
    f_equal. rewrite <- app_assoc. f_equal.
Qed.

(** C3. With [L >= 1] leapfrog steps the HMC kernel draws a momentum of two
    normal variates, makes the half step with the gradient at the start, [L]
    position updates with full momentum updates between them and the final
    half step with the gradient at the last position; its path has exactly
    [L+1] entries, the [i]-th being the position after [i] position updates
    (the current point for [i = 0]); it accepts exactly when
    [log u < H_start - H_end] with [H = -logp + 0.5*(px^2 + py^2)] taken at
    the start with the drawn momentum and at the end with the final one; a
    rejected step returns the current point with [accepted = false] and the
    same path. *)
Theorem stepHMC_leapfrog (params : Params) (lpFn : R -> R -> R)
    (gradFn : R -> R -> Gradient) (current : Point)
    (pre1 pre2 : tape) (p0x p0y : R) :
  (1 <= hmcSteps params)%Z ->
  draws_normal pre1 p0x ->
  draws_normal pre2 p0y ->
  let L := Z.to_nat (hmcSteps params) in
  let eps := hmcEpsilon params in
  let q0 := (x current, y current) in
  let p_half := half_kick eps gradFn q0 (p0x, p0y) in
  let pos := leap_pos eps gradFn q0 p_half in
  let q_end := pos L in
  let p_end :=
    half_kick eps gradFn (x q_end, y q_end)
      (leap_mom eps gradFn q0 p_half (Nat.pred L)) in
  let traj := map pos (seq 0 (S L)) in
  let H_start := hamiltonian lpFn current (p0x, p0y) in
  let H_end := hamiltonian lpFn q_end p_end in
  (forall u rest,
     stepHMC params lpFn gradFn current (pre1 ++ pre2 ++ u :: rest) =
     Some (if xltb (Math_log u) (H_start - H_end)
           then mkResult (x q_end) (y q_end) true (Some traj)
           else mkResult (x current) (y current) false (Some traj), rest))
  /\ length traj = S L
  /\ nth_error traj 0 = Some current
  /\ (forall i, (i <= L)%nat -> nth_error traj i = Some (pos i)).
Proof.
  intros HL H1 H2 L eps q0 p_half pos q_end p_end traj H_start H_end.
  assert (Hpos0 : pos 0%nat = current) by (now destruct current).
  split; [| split; [| split]].
  - intros u rest. unfold stepHMC.
    rewrite (bind_Some _ _ _ _ _ (H1 _)).
    rewrite (bind_Some _ _ _ _ _ (H2 _)).
    destruct L as [| m] eqn:EL; [unfold L in EL; lia |].
    assert (HLm : hmcSteps params = Z.of_nat (0 + S m)) by (unfold L in EL; lia).
    pose proof (hmc_loop_leap params gradFn q0 p_half m 0
                  (gradFn (x current) (y current)) [mkPoint (x current) (y current)]
                  HLm) as Hloop.
    cbv zeta in Hloop. fold eps pos in Hloop.
    replace (Z.to_nat (hmcSteps params)) with (S m) by (unfold L in EL; lia).
    set (s := hmc_loop params gradFn (S m) 0%Z _).
    assert (Hs : s = mkLeap (x (pos (S m))) (y (pos (S m)))
                   (fst (leap_mom eps gradFn q0 p_half m))
                   (snd (leap_mom eps gradFn q0 p_half m))
                   (gradFn (x (pos (S m))) (y (pos (S m))))
                   (map pos (seq 0 (S (S m))))).
    { unfold s. etransitivity; [exact Hloop |]. simpl. f_equal. }
    rewrite Hs. cbn [lx ly lpx lpy lgrad trajectory].
    unfold bind. simpl Math_random. cbv iota beta.
    unfold ret. unfold H_start, H_end, hamiltonian, p_end, half_kick, q_end.
    cbn [fst snd Nat.pred x y]. fold eps.
    now destruct (xltb _ _).
  - unfold traj. now rewrite length_map, length_seq.
  - unfold traj. simpl. now rewrite Hpos0.
  - intros i Hi. unfold traj.
    rewrite nth_error_map, nth_error_seq.
    replace (i <? S L)%nat with true by (symmetry; apply Nat.ltb_lt; lia).
    reflexivity.
Qed.

Lemma stepHMC_leapfrog_witness :
  exists res,
    stepHMC (mkParams 0.5 1 2 0.1) (LOG_PROBS gaussian) (GRADIENTS gaussian)
      (mkPoint 0.1 0.1) ([1/2; 1/4] ++ [1/2; 1/4] ++ [0]) = Some (res, [])
    /\ accepted res = true
    /\ option_map (@length Point) (path res) = Some 3%nat.
Proof.
  assert (H : draws_normal [1/2; 1/4]
                (sqrt (-2.0 * ln (1/2)) * cos (2.0 * PI * (1/4)))).
  { apply draws_normal_nonzero; lra. }
  assert (HL : (1 <= hmcSteps (mkParams 0.5 1 2 0.1))%Z) by (simpl; lia).
  destruct (stepHMC_leapfrog (mkParams 0.5 1 2 0.1) (LOG_PROBS gaussian)
              (GRADIENTS gaussian) (mkPoint 0.1 0.1) _ _ _ _ HL H H)
    as (Hrun & Hlen & _).
  eexists. split; [apply Hrun |].
  rewrite Math_log_0. cbn [xltb accepted path option_map].
  split; [reflexivity |]. now rewrite Hlen.
Defined.

(** ** The slice family: shared facts *)

Lemma xgtb_Fin_true (a b : R) : b < a -> xgtb a (Fin b) = true.
Proof. intros H. unfold xgtb, xltb. now apply Rltb_true. Qed.

Lemma xgtb_Fin_false (a b : R) : a <= b -> xgtb a (Fin b) = false.
Proof. intros H. unfold xgtb, xltb. now apply Rltb_false. Qed.

(** *** The loops of [stepSlice] *)

Section SliceLoops.

Variable params : Params.
Variable lpFn : R -> R -> R.
Variable current : Point.
Variable threshold : xreal.
Variables dx dy : R.

(** Step-out makes at most [cap] moves of one [stepSize] each. *)
Lemma slice_expand_L_bounded (cap : nat) (L : R) :
  exists k, (k <= cap)%nat /\
    slice_expand_L params lpFn cap current threshold dx dy L
    = L - INR k * stepSize params.
Proof.
  revert L. induction cap as [| n IH]; intros L.
  - exists 0%nat. split; [lia |]. simpl. lra.
  - simpl. destruct (xgtb _ _).
    + destruct (IH (L - stepSize params)) as (k & Hk & ->).
      exists (S k). split; [lia |]. rewrite S_INR. lra.
    + exists 0%nat. split; [lia |]. simpl. lra.
Qed.

Lemma slice_expand_R_bounded (cap : nat) (Rb : R) :
  exists k, (k <= cap)%nat /\
    slice_expand_R params lpFn cap current threshold dx dy Rb
    = Rb + INR k * stepSize params.
Proof.
  revert Rb. induction cap as [| n IH]; intros Rb.
  - exists 0%nat. split; [lia |]. simpl. lra.
  - simpl. destruct (xgtb _ _).
    + destruct (IH (Rb + stepSize params)) as (k & Hk & ->).
      exists (S k). split; [lia |]. rewrite S_INR. lra.
    + exists 0%nat. split; [lia |]. simpl. lra.
Qed.

(** The shrink loop reads at most [cap] draws and returns whenever the tape
    holds that many. *)
Lemma slice_shrink_total (cap : nat) (L Rb : R) (t : tape) :
  (cap <= length t)%nat ->
  exists r t', slice_shrink lpFn cap current threshold dx dy L Rb t = Some (r, t')
               /\ (length t <= length t' + cap)%nat.
Proof.
  revert L Rb t. induction cap as [| n IH]; intros L Rb t Ht.
  - exists None, t. split; [reflexivity | lia].
  - destruct t as [| u t]; simpl in Ht; [lia |].
    cbn [slice_shrink]. unfold bind at 1. rewrite rand_cons.
    destruct (xgtb _ _).
    + eexists _, t. split; [reflexivity | simpl; lia].
    + destruct (Rltb _ 0).
      * destruct (IH (u * (Rb - L) + L) Rb t) as (r & t' & -> & Hlen); [lia |].
        exists r, t'. split; [reflexivity | simpl; lia].
      * destruct (IH L (u * (Rb - L) + L) t) as (r & t' & -> & Hlen); [lia |].
        exists r, t'. split; [reflexivity | simpl; lia].
Qed.

(** A result that the shrink loop returns is a point of the line through the
    current point whose log-density is above the threshold, with the two
    ends of some bracket as its path. *)
Lemma slice_shrink_accept (cap : nat) (L Rb : R) (t t' : tape) (res : StepResult) :
  slice_shrink lpFn cap current threshold dx dy L Rb t = Some (Some res, t') ->
  accepted res = true
  /\ xgtb (lpFn (rx res) (ry res)) threshold = true
  /\ exists L' R',
       path res = Some [mkPoint (x current + L' * dx) (y current + L' * dy);
                        mkPoint (x current + R' * dx) (y current + R' * dy)].
Proof.
  revert L Rb t. induction cap as [| n IH]; intros L Rb t.
  - simpl. unfold ret. discriminate.
  - destruct t as [| u t]; [discriminate |].
    cbn [slice_shrink]. unfold bind at 1. rewrite rand_cons.
    set (dist := u * (Rb - L) + L).
    destruct (xgtb (lpFn (x current + dist * dx) (y current + dist * dy)) threshold)
      eqn:Hgt.
    + unfold ret. intros H. injection H as <- <-. cbn [accepted rx ry path].
      split; [reflexivity |]. split; [exact Hgt |]. now exists L, Rb.
    + destruct (Rltb _ 0); apply IH.
Qed.

(** The loop runs to its cap only by reading [cap] draws. *)
Lemma slice_shrink_exhausted (cap : nat) (L Rb : R) (t t' : tape) :
  slice_shrink lpFn cap current threshold dx dy L Rb t = Some (None, t') ->
  length t = (cap + length t')%nat.
Proof.
  revert L Rb t. induction cap as [| n IH]; intros L Rb t.
  - simpl. unfold ret. intros H. now injection H as <-.
  - destruct t as [| u t]; [discriminate |].
    cbn [slice_shrink]. unfold bind at 1. rewrite rand_cons.
    destruct (xgtb _ _); [unfold ret; discriminate |].
    destruct (Rltb _ 0); intros H; apply IH in H; simpl; lia.
Qed.

(** Draws of [0] put every candidate on the left end of the bracket; when
    that end is not above the threshold the loop runs to its cap. *)
Lemma slice_shrink_zeros (cap : nat) (L Rb : R) (t : tape) :
  xgtb (lpFn (x current + L * dx) (y current + L * dy)) threshold = false ->
  slice_shrink lpFn cap current threshold dx dy L Rb (repeat 0 cap ++ t)
  = Some (None, t).
Proof.
  intros HL. revert Rb. induction cap as [| n IH]; intros Rb.
  - reflexivity.
  - cbn [repeat app slice_shrink]. unfold bind at 1. rewrite rand_cons.
    replace (0 * (Rb - L) + L) with L by ring.
    rewrite HL. destruct (Rltb L 0); apply IH.
Qed.

End SliceLoops.

(** *** The loops of [stepHitAndRun] *)

Section HitAndRunLoops.

Variable lpFn : R -> R -> R.
Variable current : Point.
Variable threshold : xreal.
Variables dx dy : R.

(** Step-out doubles the end of the bracket at most [cap] times. *)
Lemma hitnrun_expand_bounded (cap : nat) (B : R) :
  exists k, (k <= cap)%nat /\
    hitnrun_expand lpFn cap current threshold dx dy B = B * 2 ^ k.
Proof.
  revert B. induction cap as [| n IH]; intros B.
  - exists 0%nat. split; [lia |]. simpl. lra.
  - simpl. destruct (xgtb _ _).
    + destruct (IH (B * 2)) as (k & Hk & ->).
      exists (S k). split; [lia |]. simpl. lra.
    + exists 0%nat. split; [lia |]. simpl. lra.
Qed.

Lemma hitnrun_shrink_total (cap : nat) (L Rb : R) (t : tape) :
  (cap <= length t)%nat ->
  exists r t', hitnrun_shrink lpFn cap current threshold dx dy L Rb t = Some (r, t')
               /\ (length t <= length t' + cap)%nat.
Proof.
  revert L Rb t. induction cap as [| n IH]; intros L Rb t Ht.
  - exists None, t. split; [reflexivity | lia].
  - destruct t as [| u t]; simpl in Ht; [lia |].
    cbn [hitnrun_shrink]. unfold bind at 1. rewrite rand_cons.
    destruct (xgtb _ _).
    + eexists _, t. split; [reflexivity | simpl; lia].
    + destruct (Rltb _ 0).
      * destruct (IH (u * (Rb - L) + L) Rb t) as (r & t' & -> & Hlen); [lia |].
        exists r, t'. split; [reflexivity | simpl; lia].
      * destruct (IH L (u * (Rb - L) + L) t) as (r & t' & -> & Hlen); [lia |].
        exists r, t'. split; [reflexivity | simpl; lia].
Qed.

Lemma hitnrun_shrink_accept (cap : nat) (L Rb : R) (t t' : tape) (res : StepResult) :
  hitnrun_shrink lpFn cap current threshold dx dy L Rb t = Some (Some res, t') ->
  accepted res = true
  /\ xgtb (lpFn (rx res) (ry res)) threshold = true
  /\ path res = None.
Proof.
  revert L Rb t. induction cap as [| n IH]; intros L Rb t.
  - simpl. unfold ret. discriminate.
  - destruct t as [| u t]; [discriminate |].
    cbn [hitnrun_shrink]. unfold bind at 1. rewrite rand_cons.
    set (dist := u * (Rb - L) + L).
    destruct (xgtb (lpFn (x current + dist * dx) (y current + dist * dy)) threshold)
      eqn:Hgt.
    + unfold ret. intros H. injection H as <- <-. cbn [accepted rx ry path].
      auto.
    + destruct (Rltb _ 0); apply IH.
Qed.

Lemma hitnrun_shrink_exhausted (cap : nat) (L Rb : R) (t t' : tape) :
  hitnrun_shrink lpFn cap current threshold dx dy L Rb t = Some (None, t') ->
  length t = (cap + length t')%nat.
Proof.
  revert L Rb t. induction cap as [| n IH]; intros L Rb t.
  - simpl. unfold ret. intros H. now injection H as <-.
  - destruct t as [| u t]; [discriminate |].
    cbn [hitnrun_shrink]. unfold bind at 1. rewrite rand_cons.
    destruct (xgtb _ _); [unfold ret; discriminate |].
    destruct (Rltb _ 0); intros H; apply IH in H; simpl; lia.
Qed.

Lemma hitnrun_shrink_zeros (cap : nat) (L Rb : R) (t : tape) :
  xgtb (lpFn (x current + L * dx) (y current + L * dy)) threshold = false ->
  hitnrun_shrink lpFn cap current threshold dx dy L Rb (repeat 0 cap ++ t)
  = Some (None, t).
Proof.
  intros HL. revert Rb. induction cap as [| n IH]; intros Rb.
  - reflexivity.
  - cbn [repeat app hitnrun_shrink]. unfold bind at 1. rewrite rand_cons.
    replace (0 * (Rb - L) + L) with L by ring.
    rewrite HL. destruct (Rltb L 0); apply IH.
Qed.

End HitAndRunLoops.

(** *** The loop of [stepElliptical] *)

Section EllipticalLoop.

Variable lpFn : R -> R -> R.
Variable current : Point.
Variable threshold : xreal.
Variables nuX nuY : R.

Lemma elliptical_loop_total (cap : nat) (theta thetaMin thetaMax : R) (t : tape) :
  (cap <= length t)%nat ->
  exists r t',
    elliptical_loop lpFn cap current threshold nuX nuY theta thetaMin thetaMax t
    = Some (r, t')
    /\ (length t <= length t' + cap)%nat.
Proof.
  revert theta thetaMin thetaMax t.
  induction cap as [| n IH]; intros theta thetaMin thetaMax t Ht.
  - exists None, t. split; [reflexivity | lia].
  - destruct t as [| u t]; simpl in Ht; [lia |].
    cbn [elliptical_loop]. destruct (xgtb _ _).
    + eexists _, (u :: t). split; [reflexivity | simpl; lia].
    + unfold bind at 1. rewrite rand_cons.
      match goal with
      | |- context [elliptical_loop _ _ _ _ _ _ ?a ?b ?c t] =>
          destruct (IH a b c t) as (r & t' & -> & Hlen); [lia |]
      end.
      exists r, t'. split; [reflexivity | simpl; lia].
Qed.

Lemma elliptical_loop_accept (cap : nat) (theta thetaMin thetaMax : R)
    (t t' : tape) (res : StepResult) :
  elliptical_loop lpFn cap current threshold nuX nuY theta thetaMin thetaMax t
  = Some (Some res, t') ->
  accepted res = true
  /\ xgtb (lpFn (rx res) (ry res)) threshold = true
  /\ path res = None.
Proof.
  revert theta thetaMin thetaMax t.
  induction cap as [| n IH]; intros theta thetaMin thetaMax t.
  - simpl. unfold ret. discriminate.
  - cbn [elliptical_loop].
    set (newX := x current * cos theta + nuX * sin theta).
    set (newY := y current * cos theta + nuY * sin theta).
    destruct (xgtb (lpFn newX newY) threshold) eqn:Hgt.
    + unfold ret. intros H. injection H as <- <-. cbn [accepted rx ry path].
      auto.
    + destruct t as [| u t]; [discriminate |].
      unfold bind at 1. rewrite rand_cons. apply IH.
Qed.

Lemma elliptical_loop_exhausted (cap : nat) (theta thetaMin thetaMax : R)
    (t t' : tape) :
  elliptical_loop lpFn cap current threshold nuX nuY theta thetaMin thetaMax t
  = Some (None, t') ->
  length t = (cap + length t')%nat.
Proof.
  revert theta thetaMin thetaMax t.
  induction cap as [| n IH]; intros theta thetaMin thetaMax t.
  - simpl. unfold ret. intros H. now injection H as <-.
  - cbn [elliptical_loop]. destruct (xgtb _ _); [unfold ret; discriminate |].
    destruct t as [| u t]; [discriminate |].
    unfold bind at 1. rewrite rand_cons. intros H. apply IH in H. simpl. lia.
Qed.

End EllipticalLoop.

(** *** The loops, one iteration at a time *)

Lemma slice_expand_L_S params lpFn n current threshold dx dy L :
  slice_expand_L params lpFn (S n) current threshold dx dy L =
  if xgtb (lpFn (x current + L * dx) (y current + L * dy)) threshold
  then slice_expand_L params lpFn n current threshold dx dy (L - stepSize params)
  else L.
Proof. reflexivity. Qed.

Lemma slice_expand_R_S params lpFn n current threshold dx dy Rb :
  slice_expand_R params lpFn (S n) current threshold dx dy Rb =
  if xgtb (lpFn (x current + Rb * dx) (y current + Rb * dy)) threshold
  then slice_expand_R params lpFn n current threshold dx dy (Rb + stepSize params)
  else Rb.
Proof. reflexivity. Qed.

Lemma hitnrun_expand_S lpFn n current threshold dx dy B :
  hitnrun_expand lpFn (S n) current threshold dx dy B =
  if xgtb (lpFn (x current + B * dx) (y current + B * dy)) threshold
  then hitnrun_expand lpFn n current threshold dx dy (B * 2)
  else B.
Proof. reflexivity. Qed.

Lemma hitnrun_shrink_S lpFn n current threshold dx dy L Rb u t :
  hitnrun_shrink lpFn (S n) current threshold dx dy L Rb (u :: t) =
  let dist := u * (Rb - L) + L in
  let newX := x current + dist * dx in
  let newY := y current + dist * dy in
  if xgtb (lpFn newX newY) threshold
  then Some (Some (mkResult newX newY true None), t)
  else if Rltb dist 0
       then hitnrun_shrink lpFn n current threshold dx dy dist Rb t
       else hitnrun_shrink lpFn n current threshold dx dy L dist t.
Proof.
  cbn [hitnrun_shrink]. unfold bind at 1. rewrite rand_cons. cbv zeta.
  destruct (xgtb _ _); [reflexivity |]. now destruct (Rltb _ 0).
Qed.

Lemma slice_shrink_S lpFn n current threshold dx dy L Rb u t :
  slice_shrink lpFn (S n) current threshold dx dy L Rb (u :: t) =
  let dist := u * (Rb - L) + L in
  let newX := x current + dist * dx in
  let newY := y current + dist * dy in
  if xgtb (lpFn newX newY) threshold
  then Some (Some (mkResult newX newY true
                     (Some [mkPoint (x current + L * dx) (y current + L * dy);
                            mkPoint (x current + Rb * dx) (y current + Rb * dy)])), t)
  else if Rltb dist 0
       then slice_shrink lpFn n current threshold dx dy dist Rb t
       else slice_shrink lpFn n current threshold dx dy L dist t.
Proof.
  cbn [slice_shrink]. unfold bind at 1. rewrite rand_cons. cbv zeta.
  destruct (xgtb _ _); [reflexivity |]. now destruct (Rltb _ 0).
Qed.

(** *** The kernels, one draw at a time *)

Lemma stepSlice_unfold (params : Params) (lpFn : R -> R -> R) (current : Point)
    (u v w : R) (rest : tape) :
  stepSlice params lpFn current (u :: v :: w :: rest) =
  let threshold := xadd (lpFn (x current) (y current)) (Math_log u) in
  let dx := cos (v * PI2) in
  let dy := sin (v * PI2) in
  let L := slice_expand_L params lpFn 100 current threshold dx dy
             (- w * stepSize params) in
  let Rb := slice_expand_R params lpFn 100 current threshold dx dy
              (- w * stepSize params + stepSize params) in
  match slice_shrink lpFn 100 current threshold dx dy L Rb rest with
  | Some (Some res, t') => Some (res, t')
  | Some (None, t') => Some (rejected current, t')
  | None => None
  end.
Proof.
  unfold stepSlice, bind. cbn [Math_random]. cbv zeta.
  destruct (slice_shrink _ _ _ _ _ _ _ _ _) as [[[res |] t'] |]; reflexivity.
Qed.

Lemma stepHitAndRun_unfold (lpFn : R -> R -> R) (current : Point)
    (v u : R) (rest : tape) :
  stepHitAndRun lpFn current (v :: u :: rest) =
  let dx := cos (v * PI2) in
  let dy := sin (v * PI2) in
  let threshold := xadd (lpFn (x current) (y current)) (Math_log u) in
  let L := hitnrun_expand lpFn 20 current threshold dx dy (-1.0) in
  let Rb := hitnrun_expand lpFn 20 current threshold dx dy 1.0 in
  match hitnrun_shrink lpFn 50 current threshold dx dy L Rb rest with
  | Some (Some res, t') => Some (res, t')
  | Some (None, t') => Some (rejected current, t')
  | None => None
  end.
Proof.
  unfold stepHitAndRun, bind. cbn [Math_random]. cbv zeta.
  destruct (hitnrun_shrink _ _ _ _ _ _ _ _ _) as [[[res |] t'] |]; reflexivity.
Qed.

Lemma stepElliptical_unfold (lpFn : R -> R -> R) (current : Point)
    (pre1 pre2 : tape) (nuX nuY u v : R) (rest : tape) :
  draws_normal pre1 nuX ->
  draws_normal pre2 nuY ->
  stepElliptical lpFn current (pre1 ++ pre2 ++ u :: v :: rest) =
  let threshold := xadd (lpFn (x current) (y current)) (Math_log u) in
  let theta := v * PI2 in
  match elliptical_loop lpFn 50 current threshold nuX nuY theta (theta - PI2) theta
          rest with
  | Some (Some res, t') => Some (res, t')
  | Some (None, t') => Some (rejected current, t')
  | None => None
  end.
Proof.
  intros H1 H2. unfold stepElliptical.
  rewrite (bind_Some _ _ _ _ _ (H1 _)).
  rewrite (bind_Some _ _ _ _ _ (H2 _)).
  unfold bind. cbn [Math_random]. cbv zeta.
  destruct (elliptical_loop _ _ _ _ _ _ _ _ _ _) as [[[res |] t'] |]; reflexivity.
Qed.

(** ** Concrete runs on the gaussian target *)

Lemma ln_half_bounds : -1 < ln (1/2) < -1/2.
Proof.
  assert (H2 : ln 2 < 1).
  { rewrite <- (ln_exp 1). apply ln_increasing; [lra |].
    pose proof (exp_ineq1 1). lra. }
  assert (H3 : 1/2 < ln 2).
  { rewrite <- (ln_exp (1/2)). apply ln_increasing; [apply exp_pos |].
    pose proof (exp_pos (1/2)) as Hp.
    assert (He : exp (1/2) * exp (1/2) <= 3).
    { rewrite <- exp_plus. replace (1/2 + 1/2) with 1 by lra. apply exp_le_3. }
    nra. }
  replace (1/2) with (/ 2) by lra.
  rewrite ln_Rinv by lra. lra.
Qed.

(** The gaussian log-density on the horizontal line through the origin. *)
Lemma gaussian_axis (d : R) :
  LOG_PROBS gaussian (0 + d * cos (0 * PI2)) (0 + d * sin (0 * PI2))
  = -0.5 * (d * d).
Proof.
  rewrite Rmult_0_l, cos_0, sin_0. unfold LOG_PROBS. lra.
Qed.

Lemma gaussian_origin_threshold :
  xadd (LOG_PROBS gaussian 0 0) (Math_log (1/2)) = Fin (ln (1/2)).
Proof.
  rewrite Math_log_pos by lra. unfold LOG_PROBS, xadd. f_equal. lra.
Qed.

(** Hit-and-run from the origin along the horizontal line, with threshold
    draw [1/2] and every shrink draw [0]: the bracket steps out to
    [[-2, 2]], all fifty candidates are its left end, and the step gives up. *)
Lemma hitnrun_exhausting_run :
  stepHitAndRun (LOG_PROBS gaussian) (mkPoint 0 0) (0 :: 1/2 :: repeat 0 50)
  = Some (mkResult 0 0 false None, []).
Proof.
  pose proof ln_half_bounds as Hln.
  rewrite stepHitAndRun_unfold. cbv zeta. cbn [x y].
  rewrite gaussian_origin_threshold.
  assert (HL : hitnrun_expand (LOG_PROBS gaussian) 20 (mkPoint 0 0) (Fin (ln (1/2)))
                 (cos (0 * PI2)) (sin (0 * PI2)) (-1.0) = -1.0 * 2).
  { rewrite hitnrun_expand_S. cbn [x y]. rewrite gaussian_axis.
    rewrite xgtb_Fin_true by lra.
    rewrite hitnrun_expand_S. cbn [x y]. rewrite gaussian_axis.
    now rewrite xgtb_Fin_false by lra. }
  rewrite HL.
  rewrite <- (app_nil_r (repeat 0 50)).
  rewrite hitnrun_shrink_zeros; [reflexivity |].
  cbn [x y]. rewrite gaussian_axis. apply xgtb_Fin_false. lra.
Qed.

(** The gaussian log-density on any line through the origin. *)
Lemma gaussian_line (theta d : R) :
  LOG_PROBS gaussian (0 + d * cos theta) (0 + d * sin theta) = -0.5 * (d * d).
Proof.
  unfold LOG_PROBS. pose proof (sin2_cos2 theta) as H. unfold Rsqr in H. nra.
Qed.

(** Giving up is not tied to draws of exactly [0]: in any direction, fifty
    shrink draws of at most [1/1000] keep every candidate within [0.2] of the
    left end of the bracket [[-2, 2]], where the density is below the
    threshold. *)
Lemma hitnrun_shrink_small_draws (theta : R) (us t : tape) (L Rb : R) :
  Forall (fun u => 0 <= u <= 1/1000) us ->
  -2 <= L -> L <= Rb -> Rb <= 2 ->
  L + 4/1000 * INR (length us) <= -3/2 ->
  hitnrun_shrink (LOG_PROBS gaussian) (length us) (mkPoint 0 0) (Fin (ln (1/2)))
    (cos theta) (sin theta) L Rb (us ++ t)
  = Some (None, t).
Proof.
  pose proof ln_half_bounds as Hln.
  intros Hus. revert L. induction Hus as [| u us Hu Hus IH]; intros L HL HLR HR Hend.
  - reflexivity.
  - cbn [length] in Hend. rewrite S_INR in Hend.
    pose proof (pos_INR (length us)) as Hn.
    assert (Hd : L <= u * (Rb - L) + L <= L + 4/1000) by nra.
    cbn [length app]. rewrite hitnrun_shrink_S. cbv zeta. cbn [x y].
    rewrite gaussian_line.
    rewrite xgtb_Fin_false by nra.
    replace (Rltb (u * (Rb - L) + L) 0) with true
      by (symmetry; apply Rltb_true; lra).
    apply IH; nra.
Qed.

Lemma hitnrun_gives_up_on_small_draws (v : R) (us : tape) :
  length us = 50%nat ->
  Forall (fun u => 0 <= u <= 1/1000) us ->
  stepHitAndRun (LOG_PROBS gaussian) (mkPoint 0 0) (v :: 1/2 :: us)
  = Some (mkResult 0 0 false None, []).
Proof.
  intros Hlen Hus. pose proof ln_half_bounds as Hln.
  rewrite stepHitAndRun_unfold. cbv zeta. cbn [x y].
  rewrite gaussian_origin_threshold.
  assert (HL : hitnrun_expand (LOG_PROBS gaussian) 20 (mkPoint 0 0) (Fin (ln (1/2)))
                 (cos (v * PI2)) (sin (v * PI2)) (-1.0) = -1.0 * 2).
  { rewrite hitnrun_expand_S. cbn [x y]. rewrite gaussian_line.
    rewrite xgtb_Fin_true by lra.
    rewrite hitnrun_expand_S. cbn [x y]. rewrite gaussian_line.
    now rewrite xgtb_Fin_false by lra. }
  assert (HR : hitnrun_expand (LOG_PROBS gaussian) 20 (mkPoint 0 0) (Fin (ln (1/2)))
                 (cos (v * PI2)) (sin (v * PI2)) 1.0 = 1.0 * 2).
  { rewrite hitnrun_expand_S. cbn [x y]. rewrite gaussian_line.
    rewrite xgtb_Fin_true by lra.
    rewrite hitnrun_expand_S. cbn [x y]. rewrite gaussian_line.
    now rewrite xgtb_Fin_false by lra. }
  rewrite HL, HR.
  rewrite <- (app_nil_r us) at 1. rewrite <- Hlen at 1.
  rewrite hitnrun_shrink_small_draws; [reflexivity | exact Hus | lra | lra | lra |].
  rewrite Hlen. replace (INR 50) with 50 by (simpl; lra). lra.
Qed.

(** Slice sampling with step size 1 from the origin along the horizontal
    line, with threshold draw [1/2] and bracket draw [1/2]: the bracket
    [[-1/2, 1/2]] steps out once on each side. *)
Lemma slice_run_bracket :
  slice_expand_L unit_step (LOG_PROBS gaussian) 100 (mkPoint 0 0) (Fin (ln (1/2)))
    (cos (0 * PI2)) (sin (0 * PI2)) (- (1/2) * 1) = - (1/2) * 1 - 1
  /\ slice_expand_R unit_step (LOG_PROBS gaussian) 100 (mkPoint 0 0) (Fin (ln (1/2)))
       (cos (0 * PI2)) (sin (0 * PI2)) (- (1/2) * 1 + 1) = - (1/2) * 1 + 1 + 1.
Proof.
  pose proof ln_half_bounds as Hln. split.
  - rewrite slice_expand_L_S. cbn [x y]. rewrite gaussian_axis.
    rewrite xgtb_Fin_true by lra.
    rewrite slice_expand_L_S. cbn [x y stepSize unit_step]. rewrite gaussian_axis.
    now rewrite xgtb_Fin_false by lra.
  - rewrite slice_expand_R_S. cbn [x y]. rewrite gaussian_axis.
    rewrite xgtb_Fin_true by lra.
    rewrite slice_expand_R_S. cbn [x y stepSize unit_step]. rewrite gaussian_axis.
    now rewrite xgtb_Fin_false by lra.
Qed.

(** With every shrink draw [0] all hundred candidates are the left end of
    the bracket, which is not above the threshold. *)
Lemma slice_run_exhausts (Rb : R) :
  slice_shrink (LOG_PROBS gaussian) 100 (mkPoint 0 0) (Fin (ln (1/2)))
    (cos (0 * PI2)) (sin (0 * PI2)) (- (1/2) * 1 - 1) Rb (repeat 0 100)
  = Some (None, []).
Proof.
  pose proof ln_half_bounds as Hln.
  rewrite <- (app_nil_r (repeat 0 100)).
  rewrite slice_shrink_zeros; [reflexivity |].
  cbn [x y]. rewrite gaussian_axis. apply xgtb_Fin_false. lra.
Qed.

(** Hit-and-run with threshold draw [0]: the threshold is [-Infinity], so
    the first candidate is returned. *)
Lemma hitnrun_accepting_run :
  exists res,
    stepHitAndRun (LOG_PROBS gaussian) (mkPoint 0.1 0.1) [0; 0; 1/2] = Some (res, [])
    /\ accepted res = true.
Proof.
  rewrite stepHitAndRun_unfold. cbv zeta. rewrite Math_log_0.
  cbn [xadd]. rewrite hitnrun_shrink_S. cbn [xgtb xltb].
  eexists. split; reflexivity.
Qed.

(** Slice sampling with threshold draw [0]: the threshold is [-Infinity],
    both ends step out a hundred times and the first candidate is returned. *)
Lemma slice_accepting_run :
  exists res,
    stepSlice unit_step (LOG_PROBS gaussian) (mkPoint 0.1 0.1) [0; 0; 1/2; 1/2]
    = Some (res, [])
    /\ accepted res = true.
Proof.
  rewrite stepSlice_unfold. cbv zeta. rewrite Math_log_0.
  cbn [xadd]. rewrite slice_shrink_S. cbn [xgtb xltb].
  eexists. split; reflexivity.
Qed.

(** ** Slice-family kernels: acceptance *)

(** C4, as it stands, fails: this hit-and-run step on the gaussian target
    returns the current point with [accepted = false]. *)
Lemma slice_family_not_always_accepted :
  exists res,
    stepHitAndRun (LOG_PROBS gaussian) (mkPoint 0 0) (0 :: 1/2 :: repeat 0 50)
    = Some (res, [])
    /\ accepted res = false.
Proof.
  exists (mkResult 0 0 false None). split; [apply hitnrun_exhausting_run | reflexivity].
Qed.

(** C4, amended. Every result of a slice, elliptical-slice or hit-and-run
    step either has [accepted = true] and is a point whose log-density is
    above the threshold [logp(current) + log u] of that step, or is the
    current point with [accepted = false], returned after the shrink loop
    has used all its tries (100 for slice, 50 for the other two). *)
Theorem slice_family_accepted_or_exhausted :
  (forall params lpFn current u v w rest res t',
     stepSlice params lpFn current (u :: v :: w :: rest) = Some (res, t') ->
     (accepted res = true
      /\ xgtb (lpFn (rx res) (ry res))
              (xadd (lpFn (x current) (y current)) (Math_log u)) = true)
     \/ (res = rejected current /\ length rest = (100 + length t')%nat))
  /\ (forall lpFn current pre1 pre2 nuX nuY u v rest res t',
        draws_normal pre1 nuX ->
        draws_normal pre2 nuY ->
        stepElliptical lpFn current (pre1 ++ pre2 ++ u :: v :: rest) = Some (res, t') ->
        (accepted res = true
         /\ xgtb (lpFn (rx res) (ry res))
                 (xadd (lpFn (x current) (y current)) (Math_log u)) = true)
        \/ (res = rejected current /\ length rest = (50 + length t')%nat))
  /\ (forall lpFn current v u rest res t',
        stepHitAndRun lpFn current (v :: u :: rest) = Some (res, t') ->
        (accepted res = true
         /\ xgtb (lpFn (rx res) (ry res))
                 (xadd (lpFn (x current) (y current)) (Math_log u)) = true)
        \/ (res = rejected current /\ length rest = (50 + length t')%nat)).
Proof.
  split; [| split].
  - intros params lpFn current u v w rest res t'.
    rewrite stepSlice_unfold. cbv zeta.
    destruct (slice_shrink _ _ _ _ _ _ _ _ _) as [[[r |] t1] |] eqn:Hs;
      [| | discriminate]; intros H; injection H as <- <-.
    + left. apply slice_shrink_accept in Hs as (Ha & Hgt & _). now split.
    + right. apply slice_shrink_exhausted in Hs. now split.
  - intros lpFn current pre1 pre2 nuX nuY u v rest res t' H1 H2.
    rewrite (stepElliptical_unfold _ _ _ _ _ _ _ _ _ H1 H2). cbv zeta.
    destruct (elliptical_loop _ _ _ _ _ _ _ _ _ _) as [[[r |] t1] |] eqn:Hs;
      [| | discriminate]; intros H; injection H as <- <-.
    + left. apply elliptical_loop_accept in Hs as (Ha & Hgt & _). now split.
    + right. apply elliptical_loop_exhausted in Hs. now split.
  - intros lpFn current v u rest res t'.
    rewrite stepHitAndRun_unfold. cbv zeta.
    destruct (hitnrun_shrink _ _ _ _ _ _ _ _ _) as [[[r |] t1] |] eqn:Hs;
      [| | discriminate]; intros H; injection H as <- <-.
    + left. apply hitnrun_shrink_accept in Hs as (Ha & Hgt & _). now split.
    + right. apply hitnrun_shrink_exhausted in Hs. now split.
Qed.

Lemma slice_family_accepted_or_exhausted_witness :
  exists res,
    stepHitAndRun (LOG_PROBS gaussian) (mkPoint 0.1 0.1) [0; 0; 1/2] = Some (res, [])
    /\ ((accepted res = true
         /\ xgtb (LOG_PROBS gaussian (rx res) (ry res))
                 (xadd (LOG_PROBS gaussian 0.1 0.1) (Math_log 0)) = true)
        \/ (res = rejected (mkPoint 0.1 0.1) /\ length [1/2] = (50 + 0)%nat)).
Proof.
  destruct hitnrun_accepting_run as (res & Hrun & _).
  exists res. split; [exact Hrun |].
  exact (proj2 (proj2 slice_family_accepted_or_exhausted)
           (LOG_PROBS gaussian) (mkPoint 0.1 0.1) 0 0 [1/2] res [] Hrun).
Defined.

(** ** Iteration caps *)

(** The three kernels return a result once their draws are on the tape. *)
Lemma stepSlice_total (params : Params) (lpFn : R -> R -> R) (current : Point)
    (t : tape) :
  (103 <= length t)%nat ->
  exists res t', stepSlice params lpFn current t = Some (res, t')
                 /\ (length t <= length t' + 103)%nat.
Proof.
  intros Ht.
  destruct t as [| u [| v [| w rest]]]; cbn [length] in Ht; try lia.
  rewrite stepSlice_unfold. cbv zeta.
  match goal with
  | |- context [slice_shrink ?f 100 ?c ?th ?a ?b ?l ?r rest] =>
      destruct (slice_shrink_total f c th a b 100 l r rest)
        as (r0 & t' & -> & Hlen); [lia |]
  end.
  destruct r0 as [res |]; eexists _, t'; (split; [reflexivity | cbn [length]; lia]).
Qed.

Lemma stepElliptical_total (lpFn : R -> R -> R) (current : Point)
    (pre1 pre2 : tape) (nuX nuY : R) (t : tape) :
  draws_normal pre1 nuX ->
  draws_normal pre2 nuY ->
  (52 <= length t)%nat ->
  exists res t', stepElliptical lpFn current (pre1 ++ pre2 ++ t) = Some (res, t')
                 /\ (length t <= length t' + 52)%nat.
Proof.
  intros H1 H2 Ht.
  destruct t as [| u [| v rest]]; cbn [length] in Ht; try lia.
  rewrite (stepElliptical_unfold _ _ _ _ _ _ _ _ _ H1 H2). cbv zeta.
  match goal with
  | |- context [elliptical_loop ?f 50 ?c ?th ?a ?b ?th0 ?l ?r rest] =>
      destruct (elliptical_loop_total f c th a b 50 th0 l r rest)
        as (r0 & t' & -> & Hlen); [lia |]
  end.
  destruct r0 as [res |]; eexists _, t'; (split; [reflexivity | cbn [length]; lia]).
Qed.

Lemma stepHitAndRun_total (lpFn : R -> R -> R) (current : Point) (t : tape) :
  (52 <= length t)%nat ->
  exists res t', stepHitAndRun lpFn current t = Some (res, t')
                 /\ (length t <= length t' + 52)%nat.
Proof.
  intros Ht.
  destruct t as [| v [| u rest]]; cbn [length] in Ht; try lia.
  rewrite stepHitAndRun_unfold. cbv zeta.
  match goal with
  | |- context [hitnrun_shrink ?f 50 ?c ?th ?a ?b ?l ?r rest] =>
      destruct (hitnrun_shrink_total f c th a b 50 l r rest)
        as (r0 & t' & -> & Hlen); [lia |]
  end.
  destruct r0 as [res |]; eexists _, t'; (split; [reflexivity | cbn [length]; lia]).
Qed.

(** An elliptical-slice step needs four draws that are not [0] for its two
    normal variates. *)
Lemma stepElliptical_needs_draws (lpFn : R -> R -> R) (current : Point) (t : tape) :
  (length (nonzero_draws t) < 4)%nat -> stepElliptical lpFn current t = None.
Proof.
  intros Hlen. unfold stepElliptical. unfold bind at 1.
  pose proof (randn_nonzero_spec t) as H1.
  destruct (nonzero_draws t) as [| u [| v l]] eqn:E; try (now rewrite H1).
  destruct H1 as (t1 & -> & Hl). injection Hl as Hl.
  unfold bind at 1.
  pose proof (randn_nonzero_spec t1) as H2. rewrite <- Hl in H2.
  cbn [length] in Hlen.
  destruct l as [| u2 [| v2 l2]]; try (now rewrite H2).
  cbn [length] in Hlen. lia.
Qed.

Lemma nonzero_draws_zeros (n : nat) : nonzero_draws (repeat 0 n) = [].
Proof.
  induction n as [| n IH]; [reflexivity |].
  cbn [repeat nonzero_draws filter]. now rewrite Reqb_refl.
Qed.

(** C5, as it stands, fails for elliptical slice sampling: [randn] draws
    again as long as the draw is [0], without a cap, so on a random sequence
    of zeros, however long, the step does not return. *)
Lemma stepElliptical_zero_draws :
  ~ exists (n : nat) (res : StepResult) (t' : tape),
      stepElliptical (LOG_PROBS gaussian) (mkPoint 0.1 0.1) (repeat 0 n)
      = Some (res, t').
Proof.
  intros (n & res & t' & H).
  rewrite stepElliptical_needs_draws in H; [discriminate |].
  rewrite nonzero_draws_zeros. cbn [length]. lia.
Qed.

(** C5, amended. Every loop of the slice, elliptical-slice and hit-and-run
    kernels stops within its cap (step-out: 100 moves per side for slice, 20
    doublings per side for hit-and-run; shrink: 100, 50 and 50 tries), so a
    slice step and a hit-and-run step return a result on every input and
    every random sequence (3 draws and at most 100 more, 2 draws and at most
    50 more), and an elliptical-slice step returns on every input once its
    two calls of [randn] have returned (2 draws and at most 50 more after
    them); [randn] itself has no cap, and on a random sequence with fewer than
    four draws that are not [0] the elliptical-slice step does not return. A
    step whose shrink loop runs to the cap returns, as an ordinary result,
    the current point with [accepted = false]. *)
Theorem capped_loops_terminate :
  (* step-out *)
  (forall params lpFn current threshold dx dy B,
     (exists k, (k <= 100)%nat /\
        slice_expand_L params lpFn 100 current threshold dx dy B
        = B - INR k * stepSize params)
     /\ (exists k, (k <= 100)%nat /\
           slice_expand_R params lpFn 100 current threshold dx dy B
           = B + INR k * stepSize params)
     /\ (exists k, (k <= 20)%nat /\
           hitnrun_expand lpFn 20 current threshold dx dy B = B * 2 ^ k))
  (* the steps return *)
  /\ (forall params lpFn current t,
        (103 <= length t)%nat ->
        exists res t', stepSlice params lpFn current t = Some (res, t')
                       /\ (length t <= length t' + 103)%nat)
  /\ (forall lpFn current pre1 pre2 nuX nuY t,
        draws_normal pre1 nuX ->
        draws_normal pre2 nuY ->
        (52 <= length t)%nat ->
        exists res t', stepElliptical lpFn current (pre1 ++ pre2 ++ t) = Some (res, t')
                       /\ (length t <= length t' + 52)%nat)
  /\ (forall lpFn current t,
        (length (nonzero_draws t) < 4)%nat ->
        stepElliptical lpFn current t = None)
  /\ (forall lpFn current t,
        (52 <= length t)%nat ->
        exists res t', stepHitAndRun lpFn current t = Some (res, t')
                       /\ (length t <= length t' + 52)%nat)
  (* running to the cap *)
  /\ (forall params lpFn current u v w rest t',
        let threshold := xadd (lpFn (x current) (y current)) (Math_log u) in
        let dx := cos (v * PI2) in
        let dy := sin (v * PI2) in
        let L := slice_expand_L params lpFn 100 current threshold dx dy
                   (- w * stepSize params) in
        let Rb := slice_expand_R params lpFn 100 current threshold dx dy
                    (- w * stepSize params + stepSize params) in
        slice_shrink lpFn 100 current threshold dx dy L Rb rest = Some (None, t') ->
        exists res, stepSlice params lpFn current (u :: v :: w :: rest) = Some (res, t')
                    /\ unmoved current res)
  /\ (forall lpFn current pre1 pre2 nuX nuY u v rest t',
        draws_normal pre1 nuX ->
        draws_normal pre2 nuY ->
        let threshold := xadd (lpFn (x current) (y current)) (Math_log u) in
        let theta := v * PI2 in
        elliptical_loop lpFn 50 current threshold nuX nuY theta (theta - PI2) theta rest
        = Some (None, t') ->
        exists res, stepElliptical lpFn current (pre1 ++ pre2 ++ u :: v :: rest)
                    = Some (res, t')
                    /\ unmoved current res)
  /\ (forall lpFn current v u rest t',
        let dx := cos (v * PI2) in
        let dy := sin (v * PI2) in
        let threshold := xadd (lpFn (x current) (y current)) (Math_log u) in
        let L := hitnrun_expand lpFn 20 current threshold dx dy (-1.0) in
        let Rb := hitnrun_expand lpFn 20 current threshold dx dy 1.0 in
        hitnrun_shrink lpFn 50 current threshold dx dy L Rb rest = Some (None, t') ->
        exists res, stepHitAndRun lpFn current (v :: u :: rest) = Some (res, t')
                    /\ unmoved current res).
Proof.
  split; [| repeat apply conj].
  - intros params lpFn current threshold dx dy B. split; [| split].
    + apply slice_expand_L_bounded.
    + apply slice_expand_R_bounded.
    + apply hitnrun_expand_bounded.
  - apply stepSlice_total.
  - apply stepElliptical_total.
  - apply stepElliptical_needs_draws.
  - apply stepHitAndRun_total.
  - intros params lpFn current u v w rest t' threshold dx dy L Rb Hs.
    rewrite stepSlice_unfold. cbv zeta. fold threshold dx dy L Rb. rewrite Hs.
    eexists. split; [reflexivity |]. repeat split.
  - intros lpFn current pre1 pre2 nuX nuY u v rest t' H1 H2 threshold theta Hs.
    rewrite (stepElliptical_unfold _ _ _ _ _ _ _ _ _ H1 H2). cbv zeta.
    fold threshold theta. rewrite Hs.
    eexists. split; [reflexivity |]. repeat split.
  - intros lpFn current v u rest t' dx dy threshold L Rb Hs.
    rewrite stepHitAndRun_unfold. cbv zeta. fold dx dy threshold L Rb. rewrite Hs.
    eexists. split; [reflexivity |]. repeat split.
Qed.

(** The slice step of [slice_run_bracket] and [slice_run_exhausts]. *)
Lemma slice_exhausting_shrink :
  slice_shrink (LOG_PROBS gaussian) 100 (mkPoint 0 0)
    (xadd (LOG_PROBS gaussian 0 0) (Math_log (1/2)))
    (cos (0 * PI2)) (sin (0 * PI2))
    (slice_expand_L unit_step (LOG_PROBS gaussian) 100 (mkPoint 0 0)
       (xadd (LOG_PROBS gaussian 0 0) (Math_log (1/2)))
       (cos (0 * PI2)) (sin (0 * PI2)) (- (1/2) * 1))
    (slice_expand_R unit_step (LOG_PROBS gaussian) 100 (mkPoint 0 0)
       (xadd (LOG_PROBS gaussian 0 0) (Math_log (1/2)))
       (cos (0 * PI2)) (sin (0 * PI2)) (- (1/2) * 1 + 1))
    (repeat 0 100)
  = Some (None, []).
Proof.
  rewrite gaussian_origin_threshold.
  rewrite (proj1 slice_run_bracket), (proj2 slice_run_bracket).
  apply slice_run_exhausts.
Qed.

Lemma capped_loops_terminate_witness :
  (exists res,
     stepSlice unit_step (LOG_PROBS gaussian) (mkPoint 0 0)
       (1/2 :: 0 :: 1/2 :: repeat 0 100) = Some (res, [])
     /\ unmoved (mkPoint 0 0) res)
  /\ (exists res t',
        stepHitAndRun (LOG_PROBS donut) (mkPoint 0.1 0.1) (repeat (1/2) 52)
        = Some (res, t')
        /\ (length (repeat (1/2)%R 52) <= length t' + 52)%nat)
  /\ (exists res t',
        stepElliptical (LOG_PROBS banana) (mkPoint 0.1 0.1)
          ([1/2; 1/4] ++ [1/2; 1/4] ++ repeat (1/2) 52)
        = Some (res, t')
        /\ (length (repeat (1/2)%R 52) <= length t' + 52)%nat)
  /\ stepElliptical (LOG_PROBS banana) (mkPoint 0.1 0.1) [0; 1/2; 0; 1/4; 1/2; 0]
     = None.
Proof.
  destruct capped_loops_terminate as (_ & _ & He & Hn & Hh & Hs & _).
  assert (Hd : draws_normal [1/2; 1/4]
                 (sqrt (-2.0 * ln (1/2)) * cos (2.0 * PI * (1/4)))).
  { apply draws_normal_nonzero; lra. }
  split; [| split; [| split]].
  - apply Hs. exact slice_exhausting_shrink.
  - apply Hh. rewrite repeat_length. lia.
  - apply (He _ _ _ _ _ _ _ Hd Hd). rewrite repeat_length. lia.
  - apply Hn. cbn [nonzero_draws filter]. rewrite !Reqb_refl.
    assert (H2 : Reqb (1/2) 0 = false) by (apply Reqb_false; lra).
    assert (H4 : Reqb (1/4) 0 = false) by (apply Reqb_false; lra).
    rewrite H2, H4. cbn [negb length]. lia.
Defined.

(** ** Slice sampling: the reported path *)

(** C6, as it stands, fails: this slice step tries a hundred candidates,
    gives up on the bracket [[-3/2, 3/2]] and returns the current point
    with [accepted = false] and without any path. *)
Lemma slice_exhausted_without_path :
  stepSlice unit_step (LOG_PROBS gaussian) (mkPoint 0 0)
    (1/2 :: 0 :: 1/2 :: repeat 0 100)
  = Some (mkResult 0 0 false None, [])
  /\ path (mkResult 0 0 false None)
     <> Some [mkPoint (0 + (- (1/2) * 1 - 1) * cos (0 * PI2))
                      (0 + (- (1/2) * 1 - 1) * sin (0 * PI2));
              mkPoint (0 + (- (1/2) * 1 + 1 + 1) * cos (0 * PI2))
                      (0 + (- (1/2) * 1 + 1 + 1) * sin (0 * PI2))].
Proof.
  split; [| discriminate].
  rewrite stepSlice_unfold. cbv zeta. cbn [x y stepSize unit_step].
  now rewrite slice_exhausting_shrink.
Qed.

(** The result of the shrink loop of [stepSlice], read off the tape: the
    draws [us] of the refused candidates, then the draw [d] of the accepted
    one, taken in the bracket that the refusals have left. *)
Lemma slice_shrink_trace (lpFn : R -> R -> R) (current : Point)
    (threshold : xreal) (dx dy : R) (cap : nat) (L Rb : R)
    (t t' : tape) (res : StepResult) :
  slice_shrink lpFn cap current threshold dx dy L Rb t = Some (Some res, t') ->
  exists us d,
    t = us ++ d :: t' /\ (length us < cap)%nat
    /\ let '(L', R') := shrink_bracket L Rb us in
       let dist := d * (R' - L') + L' in
       xgtb (lpFn (x current + dist * dx) (y current + dist * dy)) threshold = true
       /\ res = mkResult (x current + dist * dx) (y current + dist * dy) true
                  (Some [mkPoint (x current + L' * dx) (y current + L' * dy);
                         mkPoint (x current + R' * dx) (y current + R' * dy)]).
Proof.
  revert L Rb t. induction cap as [| n IH]; intros L Rb t.
  - cbn [slice_shrink]. unfold ret. discriminate.
  - destruct t as [| u t]; [discriminate |].
    rewrite slice_shrink_S. cbv zeta.
    destruct (xgtb (lpFn (x current + (u * (Rb - L) + L) * dx)
                         (y current + (u * (Rb - L) + L) * dy)) threshold) eqn:Hgt.
    + intros H. injection H as <- <-.
      exists [], u. cbn [app length shrink_bracket].
      split; [reflexivity |]. split; [lia |]. split; [exact Hgt | reflexivity].
    + destruct (Rltb (u * (Rb - L) + L) 0) eqn:E; intros H;
        apply IH in H as (us & d & -> & Hlen & Hres);
        exists (u :: us), d; cbn [app length shrink_bracket]; rewrite E;
        (split; [reflexivity |]); (split; [lia |]); exact Hres.
Qed.

(** C6, amended. When the slice kernel uses up its hundred shrink tries it
    returns the current point with [accepted = false] and no path. A step
    that accepts a candidate reports as path the two ends
    [current + L' * (cos t, sin t)] and [current + R' * (cos t, sin t)] of the
    bracket [[L', R']] in which that candidate was drawn: the stepped-out
    bracket, shrunk at every candidate refused before. *)
Theorem stepSlice_path (params : Params) (lpFn : R -> R -> R) (current : Point)
    (u v w : R) (rest : tape) :
  let threshold := xadd (lpFn (x current) (y current)) (Math_log u) in
  let dx := cos (v * PI2) in
  let dy := sin (v * PI2) in
  let L := slice_expand_L params lpFn 100 current threshold dx dy
             (- w * stepSize params) in
  let Rb := slice_expand_R params lpFn 100 current threshold dx dy
              (- w * stepSize params + stepSize params) in
  (forall t',
     slice_shrink lpFn 100 current threshold dx dy L Rb rest = Some (None, t') ->
     stepSlice params lpFn current (u :: v :: w :: rest)
     = Some (mkResult (x current) (y current) false None, t'))
  /\ (forall res t',
        stepSlice params lpFn current (u :: v :: w :: rest) = Some (res, t') ->
        accepted res = true ->
        exists us d,
          rest = us ++ d :: t' /\ (length us < 100)%nat
          /\ let '(L', R') := shrink_bracket L Rb us in
             let dist := d * (R' - L') + L' in
             res = mkResult (x current + dist * dx) (y current + dist * dy) true
                     (Some [mkPoint (x current + L' * dx) (y current + L' * dy);
                            mkPoint (x current + R' * dx) (y current + R' * dy)]))
  /\ (forall res t',
        stepSlice params lpFn current (u :: v :: w :: rest) = Some (res, t') ->
        accepted res = false ->
        path res = None).
Proof.
  intros threshold dx dy L Rb. split; [| split].
  - intros t' Hs. rewrite stepSlice_unfold. cbv zeta.
    fold threshold dx dy L Rb. now rewrite Hs.
  - intros res t'. rewrite stepSlice_unfold. cbv zeta.
    fold threshold dx dy L Rb.
    destruct (slice_shrink lpFn 100 current threshold dx dy L Rb rest)
      as [[[r |] t1] |] eqn:Hs; [| | discriminate]; intros H; injection H as <- <-.
    + intros _. apply slice_shrink_trace in Hs as (us & d & Hrest & Hlen & Hres).
      exists us, d. split; [exact Hrest |]. split; [exact Hlen |].
      destruct (shrink_bracket L Rb us) as [L' R']. exact (proj2 Hres).
    + discriminate.
  - intros res t'. rewrite stepSlice_unfold. cbv zeta.
    fold threshold dx dy L Rb.
    destruct (slice_shrink lpFn 100 current threshold dx dy L Rb rest)
      as [[[r |] t1] |] eqn:Hs; [| | discriminate]; intros H; injection H as <- <-.
    + apply slice_shrink_accept in Hs as (Ha & _). rewrite Ha. discriminate.
    + reflexivity.
Qed.

Lemma stepSlice_path_witness :
  stepSlice unit_step (LOG_PROBS gaussian) (mkPoint 0 0)
    (1/2 :: 0 :: 1/2 :: repeat 0 100)
  = Some (mkResult 0 0 false None, [])
  /\ (exists res,
        stepSlice unit_step (LOG_PROBS gaussian) (mkPoint 0.1 0.1) [0; 0; 1/2; 1/2]
        = Some (res, [])
        /\ exists us d, [1/2] = us ++ [d] /\ (length us < 100)%nat).
Proof.
  split.
  - exact (proj1 (stepSlice_path unit_step (LOG_PROBS gaussian) (mkPoint 0 0)
                    (1/2) 0 (1/2) (repeat 0 100))
             [] slice_exhausting_shrink).
  - destruct slice_accepting_run as (res & Hrun & Hacc).
    exists res. split; [exact Hrun |].
    destruct (proj1 (proj2 (stepSlice_path unit_step (LOG_PROBS gaussian)
                               (mkPoint 0.1 0.1) 0 0 (1/2) [1/2]))
                res [] Hrun Hacc) as (us & d & Hrest & Hlen & _).
    now exists us, d.
Defined.

(** ** Targets and their gradients *)

Section Calculus.

Variables f g : R -> R.
Variables a l1 l2 : R.

Lemma D_const (c : R) : has_derivative (fun _ => c) a 0.
Proof. exact (derivable_pt_lim_const c a). Qed.

Lemma D_id : has_derivative (fun t => t) a 1.
Proof. exact (derivable_pt_lim_id a). Qed.

Lemma D_plus :
  has_derivative f a l1 -> has_derivative g a l2 ->
  has_derivative (fun t => f t + g t) a (l1 + l2).
Proof. exact (derivable_pt_lim_plus f g a l1 l2). Qed.

Lemma D_minus :
  has_derivative f a l1 -> has_derivative g a l2 ->
  has_derivative (fun t => f t - g t) a (l1 - l2).
Proof. exact (derivable_pt_lim_minus f g a l1 l2). Qed.

Lemma D_mult :
  has_derivative f a l1 -> has_derivative g a l2 ->
  has_derivative (fun t => f t * g t) a (l1 * g a + f a * l2).
Proof. exact (derivable_pt_lim_mult f g a l1 l2). Qed.

Lemma D_opp : has_derivative f a l1 -> has_derivative (fun t => - f t) a (- l1).
Proof. exact (derivable_pt_lim_opp f a l1). Qed.

Lemma D_div_const (c : R) :
  has_derivative f a l1 -> has_derivative (fun t => f t / c) a (l1 * / c + f a * 0).
Proof.
  intros H. exact (derivable_pt_lim_mult f (fun _ => / c) a l1 0 H
                     (derivable_pt_lim_const (/ c) a)).
Qed.

Lemma D_comp (h : R -> R) (l : R) :
  has_derivative f a l1 -> has_derivative h (f a) l ->
  has_derivative (fun t => h (f t)) a (l * l1).
Proof. exact (derivable_pt_lim_comp f h a l1 l). Qed.

Lemma D_pow (n : nat) :
  has_derivative f a l1 ->
  has_derivative (fun t => f t ^ n) a (INR n * f a ^ Nat.pred n * l1).
Proof.
  intros H. apply (D_comp (fun u => u ^ n)); [exact H |].
  exact (derivable_pt_lim_pow (f a) n).
Qed.

Lemma D_exp :
  has_derivative f a l1 -> has_derivative (fun t => exp (f t)) a (exp (f a) * l1).
Proof.
  intros H. apply (D_comp exp); [exact H |]. exact (derivable_pt_lim_exp (f a)).
Qed.

Lemma D_ln :
  has_derivative f a l1 -> 0 < f a ->
  has_derivative (fun t => ln (f t)) a (/ f a * l1).
Proof.
  intros H Hpos. apply (D_comp ln); [exact H |].
  exact (derivable_pt_lim_ln (f a) Hpos).
Qed.

Lemma D_sqrt :
  has_derivative f a l1 -> 0 < f a ->
  has_derivative (fun t => sqrt (f t)) a (/ (2 * sqrt (f a)) * l1).
Proof.
  intros H Hpos. apply (D_comp sqrt); [exact H |].
  exact (derivable_pt_lim_sqrt (f a) Hpos).
Qed.

Lemma D_value (l : R) : has_derivative f a l1 -> l1 = l -> has_derivative f a l.
Proof. now intros H <-. Qed.

Lemma D_unique : has_derivative f a l1 -> has_derivative f a l2 -> l1 = l2.
Proof. exact (uniqueness_limite f a l1 l2). Qed.

End Calculus.

(** Differentiate an expression by the rules above; the side conditions of
    [ln] and [sqrt] are left. *)
Ltac differentiate :=
  lazymatch goal with
  | |- has_derivative (fun _ => ?c) _ _ => apply D_const
  | |- has_derivative (fun t => t) _ _ => apply D_id
  | |- has_derivative (fun t => @?u t + @?v t) _ _ =>
      apply (D_plus u v); differentiate
  | |- has_derivative (fun t => @?u t - @?v t) _ _ =>
      apply (D_minus u v); differentiate
  | |- has_derivative (fun t => @?u t * @?v t) _ _ =>
      apply (D_mult u v); differentiate
  | |- has_derivative (fun t => @?u t / ?c) _ _ =>
      apply (D_div_const u); differentiate
  | |- has_derivative (fun t => - @?u t) _ _ =>
      apply (D_opp u); differentiate
  | |- has_derivative (fun t => @?u t ^ ?n) _ _ =>
      apply (D_pow u); differentiate
  | |- has_derivative (fun t => exp (@?u t)) _ _ =>
      apply (D_exp u); differentiate
  | |- has_derivative (fun t => ln (@?u t)) _ _ =>
      apply (D_ln u); [differentiate |]
  | |- has_derivative (fun t => sqrt (@?u t)) _ _ =>
      apply (D_sqrt u); [differentiate |]
  end.

(** Name an exponential of the goal, keeping only that it is positive. *)
Ltac name_exp e :=
  match goal with
  | |- context [exp ?s] =>
      set (e := exp s); assert (0 < e) by apply exp_pos; clearbody e
  end.

Lemma gaussian_gradient (a b : R) :
  is_gradient (LOG_PROBS gaussian) a b (GRADIENTS gaussian a b).
Proof.
  split; cbn [LOG_PROBS GRADIENTS dx dy].
  - eapply D_value; [differentiate | lra].
  - eapply D_value; [differentiate | lra].
Qed.

Lemma banana_gradient (a b : R) :
  is_gradient (LOG_PROBS banana) a b (GRADIENTS banana a b).
Proof.
  split; cbn [LOG_PROBS GRADIENTS dx dy]; cbv zeta.
  - eapply D_value; [differentiate | simpl; field].
  - eapply D_value; [differentiate | simpl; field].
Qed.

Lemma bimodal_gradient (a b : R) :
  is_gradient (LOG_PROBS bimodal) a b (GRADIENTS bimodal a b).
Proof.
  assert (Hpos : forall s t, 0 < exp s + exp t + 1e-9).
  { intros s t. pose proof (exp_pos s). pose proof (exp_pos t). lra. }
  split; cbn [LOG_PROBS GRADIENTS dx dy]; cbv zeta.
  - eapply D_value; [differentiate; apply Hpos |].
    simpl. name_exp e1. name_exp e2. field. lra.
  - eapply D_value; [differentiate; apply Hpos |].
    simpl. name_exp e1. name_exp e2. field. lra.
Qed.

Lemma donut_exact_gradient (a b : R) :
  0 < a * a + b * b ->
  is_gradient (LOG_PROBS donut) a b (donut_gradient a b).
Proof.
  intros Hpos.
  assert (Hr : 0 < sqrt (a * a + b * b)) by now apply sqrt_lt_R0.
  split; cbn [LOG_PROBS donut_gradient dx dy]; cbv zeta.
  - eapply D_value; [differentiate; exact Hpos |].
    simpl. field. lra.
  - eapply D_value; [differentiate; exact Hpos |].
    simpl. field. lra.
Qed.

(** C7, as it stands, fails for the donut: at [(2.5, 0)], on the ring, the
    partial derivative of the log-density in [x] is [0], and the supplied
    gradient returns a non-zero [dx]. *)
Lemma donut_gradient_not_exact :
  ~ is_gradient (LOG_PROBS donut) 2.5 0 (GRADIENTS donut 2.5 0).
Proof.
  intros [Hx _].
  assert (Hpos : 0 < 2.5 * 2.5 + 0 * 0) by lra.
  destruct (donut_exact_gradient 2.5 0 Hpos) as [Hx' _].
  pose proof (D_unique _ _ _ _ Hx Hx') as H.
  cbn [GRADIENTS donut_gradient dx] in H. cbv zeta in H.
  replace (2.5 * 2.5 + 0 * 0) with (Rsqr 2.5) in H by (unfold Rsqr; lra).
  rewrite sqrt_Rsqr in H by lra.
  assert (Hq : 0 < 2.5 / (2.5 + 1e-9)) by (apply Rdiv_lt_0_compat; lra).
  nra.
Qed.

(** A guard [e] on the radius moves each component of the donut gradient by
    at most [10 * e / r]. *)
Lemma donut_guard_error (c r e : R) :
  0 < r -> 0 < e -> Rabs c <= r ->
  Rabs (-4 * (r + e - 2.5) * (c / (r + e)) - -4 * (r - 2.5) * (c / r))
  <= 10 * e / r.
Proof.
  intros Hr He Hc.
  replace 2.5 with (5 / 2) by lra.
  replace (-4 * (r + e - 5 / 2) * (c / (r + e)) - -4 * (r - 5 / 2) * (c / r))
    with (- (10 * e / r) * (c / (r + e))) by (field; lra).
  rewrite Rabs_mult, Rabs_Ropp.
  assert (Hq : 0 < 10 * e / r) by (apply Rdiv_lt_0_compat; lra).
  rewrite (Rabs_pos_eq (10 * e / r)) by lra.
  assert (Hle : Rabs (c / (r + e)) <= 1).
  { unfold Rdiv. rewrite Rabs_mult, (Rabs_pos_eq (/ (r + e))).
    - apply Rmult_le_reg_r with (r := r + e); [lra |].
      rewrite Rmult_assoc, Rinv_l by lra. lra.
    - left. apply Rinv_0_lt_compat. lra. }
  pose proof (Rabs_pos (c / (r + e))). nra.
Qed.

Lemma Rabs_le_sqrt_l (a b : R) : Rabs a <= sqrt (a * a + b * b).
Proof.
  rewrite <- sqrt_Rsqr_abs. apply sqrt_le_1_alt. unfold Rsqr. nra.
Qed.

Lemma Rabs_le_sqrt_r (a b : R) : Rabs b <= sqrt (a * a + b * b).
Proof.
  rewrite <- sqrt_Rsqr_abs. apply sqrt_le_1_alt. unfold Rsqr. nra.
Qed.

(** C7, amended. The gradients supplied for the gaussian, bimodal and
    banana targets are the exact gradients of their log-densities at every
    point. The donut gradient is [-4*(r' - 2.5)*(x/r', y/r')] with the
    guarded radius [r' = sqrt(x^2+y^2) + 1e-9]; away from the origin the
    exact gradient is the same expression at [r = sqrt(x^2+y^2)], and the
    two differ by at most [10 * 1e-9 / r] in each component. *)
Theorem catalog_gradients (a b : R) :
  is_gradient (LOG_PROBS gaussian) a b (GRADIENTS gaussian a b)
  /\ is_gradient (LOG_PROBS bimodal) a b (GRADIENTS bimodal a b)
  /\ is_gradient (LOG_PROBS banana) a b (GRADIENTS banana a b)
  /\ (let r := sqrt (a * a + b * b) in
      let exact := mkGradient (-4 * (r - 2.5) * (a / r)) (-4 * (r - 2.5) * (b / r)) in
      GRADIENTS donut a b
      = mkGradient (-4 * (r + 1e-9 - 2.5) * (a / (r + 1e-9)))
                   (-4 * (r + 1e-9 - 2.5) * (b / (r + 1e-9)))
      /\ (0 < r ->
          is_gradient (LOG_PROBS donut) a b exact
          /\ Rabs (dx (GRADIENTS donut a b) - dx exact) <= 10 * 1e-9 / r
          /\ Rabs (dy (GRADIENTS donut a b) - dy exact) <= 10 * 1e-9 / r)).
Proof.
  split; [apply gaussian_gradient |].
  split; [apply bimodal_gradient |].
  split; [apply banana_gradient |].
  intros r exact. split; [reflexivity |].
  intros Hr.
  assert (Hpos : 0 < a * a + b * b).
  { destruct (Rle_lt_dec (a * a + b * b) 0) as [Hle | Hlt]; [| exact Hlt].
    exfalso. unfold r in Hr. rewrite sqrt_neg_0 in Hr by exact Hle. lra. }
  split; [exact (donut_exact_gradient a b Hpos) |].
  cbn [GRADIENTS dx dy exact]. cbv zeta. fold r. unfold exact. cbn [dx dy].
  split; apply donut_guard_error; try exact Hr; try lra.
  - apply Rabs_le_sqrt_l.
  - apply Rabs_le_sqrt_r.
Qed.

Lemma catalog_gradients_witness :
  0 < sqrt (2.5 * 2.5 + 0 * 0)
  /\ is_gradient (LOG_PROBS donut) 2.5 0
       (mkGradient
          (-4 * (sqrt (2.5 * 2.5 + 0 * 0) - 2.5) * (2.5 / sqrt (2.5 * 2.5 + 0 * 0)))
          (-4 * (sqrt (2.5 * 2.5 + 0 * 0) - 2.5) * (0 / sqrt (2.5 * 2.5 + 0 * 0)))).
Proof.
  assert (Hr : 0 < sqrt (2.5 * 2.5 + 0 * 0)) by (apply sqrt_lt_R0; lra).
  split; [exact Hr |].
  exact (proj1 (proj2 (proj2 (proj2 (proj2 (catalog_gradients 2.5 0)))) Hr)).
Defined.

Lemma bimodal_components (x y : R) :
  LOG_PROBS bimodal x y
  = ln (bimodal_component (-1.5) (-1.5) x y + bimodal_component 1.5 1.5 x y + 1e-9).
Proof.
  cbn [LOG_PROBS]. cbv zeta. unfold bimodal_component.
  replace (-2 * ((x - -1.5) ^ 2 + (y - -1.5) ^ 2))
    with (- ((x + 1.5) ^ 2 + (y + 1.5) ^ 2) * 2) by lra.
  replace (-2 * ((x - 1.5) ^ 2 + (y - 1.5) ^ 2))
    with (- ((x - 1.5) ^ 2 + (y - 1.5) ^ 2) * 2) by lra.
  reflexivity.
Qed.

(** C8, as it stands, fails for the bimodal target: the code takes the
    logarithm of the sum of the two components plus 1e-9. *)
Lemma bimodal_not_log_of_sum :
  LOG_PROBS bimodal 1.5 1.5 <> bimodal_closed_form 1.5 1.5.
Proof.
  rewrite bimodal_components. unfold bimodal_closed_form, bimodal_component.
  name_exp e1. name_exp e2. intros Heq.
  apply ln_inv in Heq; lra.
Qed.

(** C8, amended. At every point the gaussian, donut and banana
    log-densities equal their closed forms, and the bimodal log-density is
    the logarithm of the sum of the two component densities plus 1e-9. *)
Theorem catalog_closed_forms (x y : R) :
  LOG_PROBS gaussian x y = gaussian_closed_form x y
  /\ LOG_PROBS donut x y = donut_closed_form x y
  /\ LOG_PROBS banana x y = banana_closed_form x y
  /\ LOG_PROBS bimodal x y
     = ln (bimodal_component (-1.5) (-1.5) x y + bimodal_component 1.5 1.5 x y
           + 1e-9).
Proof.
  split; [| split; [| split]].
  - unfold gaussian_closed_form. cbn [LOG_PROBS]. lra.
  - unfold donut_closed_form. cbn [LOG_PROBS]. cbv zeta.
    replace (x ^ 2 + y ^ 2) with (x * x + y * y) by lra. reflexivity.
  - unfold banana_closed_form. cbn [LOG_PROBS]. cbv zeta.
    replace (y - x ^ 2) with (y - x * x) by lra. reflexivity.
  - apply bimodal_components.
Qed.

(** ** The stepping loop *)

Lemma lastn_all {A : Type} (k : nat) (l : list A) :
  (length l <= k)%nat -> lastn k l = l.
Proof.
  intros H. unfold lastn. now replace (length l - k)%nat with 0%nat by lia.
Qed.

Lemma lastn_length {A : Type} (k : nat) (l : list A) :
  length (lastn k l) = Nat.min k (length l).
Proof. unfold lastn. rewrite length_skipn. lia. Qed.

Lemma lastn_app {A : Type} (k : nat) (l l' : list A) :
  lastn k (lastn k l ++ l') = lastn k (l ++ l').
Proof.
  destruct (Nat.le_gt_cases (length l) k) as [Hle | Hgt].
  - now rewrite (lastn_all k l Hle).
  - unfold lastn at 1 3. rewrite !length_app, lastn_length.
    replace (Nat.min k (length l)) with k by lia.
    replace (length l + length l' - k)%nat
      with (length l' + (length l - k))%nat by lia.
    rewrite <- skipn_skipn. f_equal.
    + lia.
    + unfold lastn. rewrite skipn_app.
      now replace (length l - k - length l)%nat with 0%nat by lia.
Qed.

(** Pushing evicts from the front, and only when the history is full. *)
Lemma push_sample_fifo (l : list Sample) (s : Sample) :
  (length l <= 2000)%nat ->
  push_sample l s = if (length l <? 2000)%nat then l ++ [s] else tl l ++ [s].
Proof.
  intros Hlen. unfold push_sample. rewrite length_app. cbn [length].
  destruct (Nat.ltb_spec 2000 (length l + 1)), (Nat.ltb_spec (length l) 2000);
    try lia; try reflexivity.
  destruct l as [| s0 l]; [cbn [length] in *; lia | reflexivity].
Qed.

Lemma push_sample_lastn (l : list Sample) (s : Sample) :
  (length l <= 2000)%nat -> push_sample l s = lastn 2000 (l ++ [s]).
Proof.
  intros Hlen. rewrite push_sample_fifo by exact Hlen.
  destruct (Nat.ltb_spec (length l) 2000).
  - rewrite lastn_all; [reflexivity |]. rewrite length_app. cbn [length]. lia.
  - unfold lastn. rewrite length_app. cbn [length].
    replace (length l + 1 - 2000)%nat with 1%nat by lia.
    destruct l as [| s0 l]; [cbn [length] in *; lia | reflexivity].
Qed.

Lemma push_sample_last (l : list Sample) (s : Sample) :
  exists front, push_sample l s = front ++ [s].
Proof.
  unfold push_sample. destruct (2000 <? length (l ++ [s]))%nat eqn:E.
  - destruct l as [| s0 l].
    + apply Nat.ltb_lt in E. cbn [app length] in E. lia.
    + now exists l.
  - now exists l.
Qed.

Lemma animate_body_inv params algo target st a t st' a' t' :
  animate_body params algo target (st, a) t = Some ((st', a'), t') ->
  exists r,
    run_kernel params algo target (mkPoint (st_x st) (st_y st)) t = Some (r, t')
    /\ st' = mkStateRef (rx r) (ry r) (push_sample (samples st) (to_sample r)) (path r)
    /\ a' = (if accepted r then a + 1 else a)%Z.
Proof.
  unfold animate_body. intros H.
  apply bind_inv in H as (r & t1 & Hr & H).
  unfold ret in H. injection H as <- <- <-. now exists r.
Qed.

Lemma animate_iter_at_newest params algo target n st a t st' a' t' :
  animate_iter n params algo target (st, a) t = Some ((st', a'), t') ->
  (0 < n)%nat \/ at_newest st ->
  at_newest st'.
Proof.
  revert st a t. induction n as [| n IH]; intros st a t H Hn.
  - cbn [animate_iter] in H. unfold ret in H. injection H as <- <- <-.
    destruct Hn as [Hn | Hn]; [lia | exact Hn].
  - cbn [animate_iter] in H.
    apply bind_inv in H as ([st1 a1] & t1 & Hb & H).
    apply (IH _ _ _ H). right.
    apply animate_body_inv in Hb as (r & _ & -> & _).
    destruct (push_sample_last (samples st) (to_sample r)) as (front & Hf).
    exists front, (to_sample r). cbn [samples st_x st_y]. now split.
Qed.

(** With a kernel that reads a bounded number of draws the loop returns. *)
Lemma animate_iter_returns (params : Params) (algo : AlgoType)
    (target : TargetType) (n : nat) (st : StateRef) (a : Z) (t : tape) :
  algo = slice \/ algo = hitnrun ->
  (103 * n <= length t)%nat ->
  exists st' a' t', animate_iter n params algo target (st, a) t = Some ((st', a'), t').
Proof.
  intros Halgo. revert st a t. induction n as [| n IH]; intros st a t Ht.
  - now exists st, a, t.
  - assert (Hk : exists r t1,
               run_kernel params algo target (mkPoint (st_x st) (st_y st)) t
               = Some (r, t1) /\ (length t <= length t1 + 103)%nat).
    { destruct Halgo as [-> | ->]; cbn [run_kernel].
      - apply stepSlice_total. lia.
      - destruct (stepHitAndRun_total (LOG_PROBS target)
                    (mkPoint (st_x st) (st_y st)) t) as (r & t1 & Hr & Hlen); [lia |].
        exists r, t1. split; [exact Hr | lia]. }
    destruct Hk as (r & t1 & Hr & Hlen).
    cbn [animate_iter]. unfold animate_body at 1.
    rewrite (bind_Some _ _ _ _ _ (bind_Some _ _ _ _ _ Hr)).
    apply IH. lia.
Qed.

(** C9. Every step of the stepping loop keeps the chain state in order: from
    a state whose history holds the (at most 2000) most recent of the samples
    [hist] emitted so far, [n] steps of any kernel on any target emit the [n]
    results of the chain, the history holds the most recent of all samples in
    step order and has [min(2000, |hist| + n)] entries, a push evicts the oldest entry
    and only from a full history, and after at least one step the position is
    that of the newest entry. *)
Theorem animate_history_invariant (params : Params) (algo : AlgoType)
    (target : TargetType) (n : nat) (hist : list Sample)
    (st st' : StateRef) (a a' : Z) (t t' : tape) :
  samples st = lastn 2000 hist ->
  animate_iter n params algo target (st, a) t = Some ((st', a'), t') ->
  (exists rs,
     chain n params algo target (mkPoint (st_x st) (st_y st)) t = Some (rs, t')
     /\ length rs = n
     /\ samples st' = lastn 2000 (hist ++ map to_sample rs))
  /\ length (samples st') = Nat.min 2000 (length hist + n)
  /\ (length (samples st') <= 2000)%nat
  /\ (forall l s, (length l <= 2000)%nat ->
        push_sample l s = if (length l <? 2000)%nat then l ++ [s] else tl l ++ [s])
  /\ ((0 < n)%nat -> at_newest st').
Proof.
  intros Hst Hrun.
  assert (Hchain : exists rs,
             chain n params algo target (mkPoint (st_x st) (st_y st)) t = Some (rs, t')
             /\ length rs = n
             /\ samples st' = lastn 2000 (hist ++ map to_sample rs)).
  { revert hist st a t Hst Hrun.
    induction n as [| n IH]; intros hist st a t Hst Hrun.
    - cbn [animate_iter] in Hrun. unfold ret in Hrun. injection Hrun as <- <- <-.
      exists []. cbn [chain map]. rewrite app_nil_r. now repeat split.
    - cbn [animate_iter] in Hrun.
      apply bind_inv in Hrun as ([st1 a1] & t1 & Hb & Hrun).
      apply animate_body_inv in Hb as (r & Hr & -> & _).
      assert (H1 : samples (mkStateRef (rx r) (ry r)
                              (push_sample (samples st) (to_sample r)) (path r))
                   = lastn 2000 (hist ++ [to_sample r])).
      { cbn [samples]. rewrite push_sample_lastn.
        - rewrite Hst. apply lastn_app.
        - rewrite Hst, lastn_length. lia. }
      destruct (IH _ _ _ _ H1 Hrun) as (rs & Hc & Hlen & Hs).
      exists (r :: rs). cbn [chain st_x st_y] in *.
      rewrite (bind_Some _ _ _ _ _ Hr), (bind_Some _ _ _ _ _ Hc).
      split; [reflexivity |]. split; [cbn [length]; lia |].
      rewrite Hs, <- app_assoc. reflexivity. }
  split; [exact Hchain |]. split; [| split; [| split]].
  - destruct Hchain as (rs & _ & Hlen & ->).
    now rewrite lastn_length, length_app, length_map, Hlen.
  - destruct Hchain as (rs & _ & _ & ->). rewrite lastn_length. lia.
  - apply push_sample_fifo.
  - intros Hn. apply (animate_iter_at_newest _ _ _ _ _ _ _ _ _ _ Hrun). now left.
Qed.

(** One step of hit-and-run from the seed of [reset]. *)
Lemma animate_first_step :
  exists st',
    animate_iter 1 unit_step hitnrun gaussian (reset_state, 0%Z) [0; 0; 1/2]
    = Some ((st', 1%Z), []).
Proof.
  destruct hitnrun_accepting_run as (res & Hrun & Hacc).
  cbn [animate_iter]. unfold animate_body.
  cbn [reset_state st_x st_y samples run_kernel].
  rewrite (bind_Some _ _ _ _ _ (bind_Some _ _ _ _ _ Hrun)).
  rewrite Hacc. unfold ret. eexists. reflexivity.
Qed.

Lemma animate_history_invariant_witness :
  exists st',
    animate_iter 1 unit_step hitnrun gaussian (reset_state, 0%Z) [0; 0; 1/2]
    = Some ((st', 1%Z), [])
    /\ (length (samples st') <= 2000)%nat
    /\ at_newest st'.
Proof.
  destruct animate_first_step as (st' & Hrun).
  exists st'. split; [exact Hrun |].
  destruct (animate_history_invariant unit_step hitnrun gaussian 1 []
              reset_state st' 0%Z 1%Z [0; 0; 1/2] [] eq_refl Hrun)
    as (_ & _ & Hlen & _ & Hnew).
  split; [exact Hlen | apply Hnew; lia].
Defined.

(** C10. With [stepsPerFrame <= 0] the stepping loop runs no kernel: it reads
    no draw and leaves the position, the history and the current path as
    they were, whatever the kernel and the target. *)
Theorem animate_loop_nonpositive (params : Params) (algo : AlgoType)
    (target : TargetType) (st : StateRef) (t : tape) :
  (stepsPerFrame params <= 0)%Z ->
  animate_loop params algo target st t = Some ((st, 0%Z), t).
Proof.
  intros H. unfold animate_loop.
  replace (Z.to_nat (stepsPerFrame params)) with 0%nat by lia.
  reflexivity.
Qed.

Lemma animate_loop_nonpositive_witness :
  animate_loop (mkParams 0.5 (-3) 10 0.1) hmc donut reset_state [1/2; 1/4]
  = Some ((reset_state, 0%Z), [1/2; 1/4]).
Proof.
  apply animate_loop_nonpositive. cbn [stepsPerFrame]. lia.
Defined.

(** * Further properties of the engine *)

(** ** The random helpers *)

(** X2. [randn] returns exactly on a tape that starts with any number of
    zeros, a draw [u] that is not [0], again any number of zeros and a draw
    [v] that is not [0]: it returns the Box-Muller variate of [u] and [v] and
    leaves exactly the tape after [v]. It does not return exactly when the
    tape holds fewer than two draws that are not [0]. *)
Theorem randn_first_two_nonzero (t : tape) :
  (forall n t',
     randn t = Some (n, t') <->
     exists k1 u k2 v,
       u <> 0 /\ v <> 0
       /\ t = repeat 0 k1 ++ u :: repeat 0 k2 ++ v :: t'
       /\ n = sqrt (-2.0 * ln u) * cos (2.0 * PI * v))
  /\ (randn t = None <-> (length (nonzero_draws t) < 2)%nat).
Proof.
  split.
  - intros n t'. split.
    + unfold randn. intros H.
      apply bind_inv in H as (u & t1 & Hu & H).
      apply bind_inv in H as (v & t2 & Hv & H).
      unfold ret in H. injection H as <- <-.
      apply nonzero_random_inv in Hu as (k1 & Hu & ->).
      apply nonzero_random_inv in Hv as (k2 & Hv & ->).
      now exists k1, u, k2, v.
    + intros (k1 & u & k2 & v & Hu & Hv & -> & ->).
      unfold randn, bind.
      rewrite (nonzero_random_zeros k1 u _ Hu).
      now rewrite (nonzero_random_zeros k2 v _ Hv).
  - pose proof (randn_nonzero_spec t) as H.
    destruct (nonzero_draws t) as [| u [| v l]]; cbn [length].
    + split; [intros _; lia | intros _; exact H].
    + split; [intros _; lia | intros _; exact H].
    + destruct H as (t' & -> & _). split; [discriminate | lia].
Qed.

(** X3. On draws of [(0, 1)] the radicand of [randn] is not negative, and
    the variate is at most its square root in absolute value. *)
Theorem randn_bounded (u v : R) (t : tape) :
  0 < u < 1 -> v <> 0 ->
  exists n, randn (u :: v :: t) = Some (n, t)
            /\ 0 <= -2.0 * ln u
            /\ Rabs n <= sqrt (-2.0 * ln u).
Proof.
  intros Hu Hv.
  assert (Hu0 : u <> 0) by lra.
  exists (sqrt (-2.0 * ln u) * cos (2.0 * PI * v)).
  split; [exact (draws_normal_nonzero u v Hu0 Hv t) |].
  assert (Hln : ln u < 0).
  { rewrite <- ln_1. apply ln_increasing; lra. }
  split; [lra |].
  rewrite Rabs_mult.
  rewrite (Rabs_pos_eq (sqrt _)) by apply sqrt_pos.
  pose proof (COS_bound (2.0 * PI * v)) as [Hc1 Hc2].
  assert (Hc : Rabs (cos (2.0 * PI * v)) <= 1) by (apply Rabs_le; lra).
  pose proof (sqrt_pos (-2.0 * ln u)). nra.
Qed.

Lemma randn_bounded_witness :
  exists n, randn [1/2; 1/4] = Some (n, [])
            /\ 0 <= -2.0 * ln (1/2)
            /\ Rabs n <= sqrt (-2.0 * ln (1/2)).
Proof. apply randn_bounded; lra. Defined.

(** ** The Metropolis tests *)

Lemma log_draw_negative (u d : R) :
  0 <= u < 1 -> 0 <= d -> xltb (Math_log u) d = true.
Proof.
  intros Hu Hd. apply log_draw_lt; [exact Hu |].
  apply Rmin_glb_lt; [lra |].
  apply Rlt_le_trans with (r2 := 1); [lra |].
  rewrite <- exp_0. destruct Hd as [Hd | <-]; [| lra].
  left. now apply exp_increasing.
Qed.

Lemma stepRWM_run (params : Params) (lpFn : R -> R -> R) (current : Point)
    (pre1 pre2 : tape) (n1 n2 u : R) (rest : tape) :
  draws_normal pre1 n1 ->
  draws_normal pre2 n2 ->
  stepRWM params lpFn current (pre1 ++ pre2 ++ u :: rest) =
  let xNew := x current + n1 * stepSize params in
  let yNew := y current + n2 * stepSize params in
  Some (if xltb (Math_log u) (lpFn xNew yNew - lpFn (x current) (y current))
        then mkResult xNew yNew true None
        else rejected current, rest).
Proof.
  intros H1 H2. unfold stepRWM.
  rewrite (bind_Some _ _ _ _ _ (H1 _)), (bind_Some _ _ _ _ _ (H2 _)).
  unfold bind. cbn [Math_random]. cbv zeta. now destruct (xltb _ _).
Qed.

Lemma stepHMC_run (params : Params) (lpFn : R -> R -> R)
    (gradFn : R -> R -> Gradient) (current : Point)
    (pre1 pre2 : tape) (p0x p0y u : R) (rest : tape) :
  draws_normal pre1 p0x ->
  draws_normal pre2 p0y ->
  stepHMC params lpFn gradFn current (pre1 ++ pre2 ++ u :: rest) =
  let s := hmc_loop params gradFn (Z.to_nat (hmcSteps params)) 0%Z
             (mkLeap (x current) (y current)
                (p0x + 0.5 * hmcEpsilon params * dx (gradFn (x current) (y current)))
                (p0y + 0.5 * hmcEpsilon params * dy (gradFn (x current) (y current)))
                (gradFn (x current) (y current))
                [mkPoint (x current) (y current)]) in
  let '(q, p) := hmc_integrate params gradFn (x current) (y current) p0x p0y in
  Some (if xltb (Math_log u)
             (hamiltonian lpFn current (p0x, p0y)
              - hamiltonian lpFn (mkPoint (fst q) (snd q)) p)
        then mkResult (fst q) (snd q) true (Some (trajectory s))
        else mkResult (x current) (y current) false (Some (trajectory s)), rest).
Proof.
  intros H1 H2. unfold stepHMC.
  rewrite (bind_Some _ _ _ _ _ (H1 _)), (bind_Some _ _ _ _ _ (H2 _)).
  unfold bind. cbn [Math_random]. cbv zeta.
  unfold hmc_integrate, hamiltonian. cbv zeta. cbn [fst snd x y].
  now destruct (xltb _ _).
Qed.

(** X4. Random-walk Metropolis never refuses a proposal whose log-density
    is at least that of the current point: for a uniform draw of [[0, 1)]
    the step moves to the proposal with [accepted = true]. *)
Theorem stepRWM_uphill (params : Params) (lpFn : R -> R -> R) (current : Point)
    (pre1 pre2 : tape) (n1 n2 u : R) (rest : tape) :
  draws_normal pre1 n1 ->
  draws_normal pre2 n2 ->
  0 <= u < 1 ->
  let xNew := x current + n1 * stepSize params in
  let yNew := y current + n2 * stepSize params in
  lpFn (x current) (y current) <= lpFn xNew yNew ->
  stepRWM params lpFn current (pre1 ++ pre2 ++ u :: rest)
  = Some (mkResult xNew yNew true None, rest).
Proof.
  intros H1 H2 Hu xNew yNew Hup.
  rewrite (stepRWM_run _ _ _ _ _ _ _ _ _ H1 H2). cbv zeta. fold xNew yNew.
  rewrite log_draw_negative; [reflexivity | exact Hu | lra].
Qed.

Lemma stepRWM_uphill_witness :
  stepRWM (mkParams 0.5 1 10 0.1) (LOG_PROBS donut) (mkPoint 0.1 0.1)
    ([1/2; 1/4] ++ [1/2; 1/4] ++ [1/2])
  = Some (mkResult
            (0.1 + sqrt (-2.0 * ln (1/2)) * cos (2.0 * PI * (1/4)) * 0.5)
            (0.1 + sqrt (-2.0 * ln (1/2)) * cos (2.0 * PI * (1/4)) * 0.5)
            true None, []).
Proof.
  apply (stepRWM_uphill (mkParams 0.5 1 10 0.1) (LOG_PROBS donut) (mkPoint 0.1 0.1)
           [1/2; 1/4] [1/2; 1/4] _ _ (1/2) []).
  - apply draws_normal_nonzero; lra.
  - apply draws_normal_nonzero; lra.
  - lra.
  - cbn [x y stepSize].
    replace (2.0 * PI * (1/4)) with (PI / 2) by lra.
    rewrite cos_PI2, Rmult_0_r, Rmult_0_l, Rplus_0_r. lra.
Defined.

(** ** The leapfrog integrator *)








(** X7. With [hmcSteps <= 0] the leapfrog loop is not entered: whatever the
    test decides, the step returns the current position, and its path is the
    current position alone. *)
Theorem stepHMC_without_steps (params : Params) (lpFn : R -> R -> R)
    (gradFn : R -> R -> Gradient) (current : Point)
    (pre1 pre2 : tape) (p0x p0y u : R) (rest : tape) :
  (hmcSteps params <= 0)%Z ->
  draws_normal pre1 p0x ->
  draws_normal pre2 p0y ->
  exists res,
    stepHMC params lpFn gradFn current (pre1 ++ pre2 ++ u :: rest) = Some (res, rest)
    /\ rx res = x current /\ ry res = y current
    /\ path res = Some [mkPoint (x current) (y current)].
Proof.
  intros HL H1 H2. rewrite (stepHMC_run _ _ _ _ _ _ _ _ _ _ H1 H2).
  unfold hmc_integrate. cbv zeta.
  replace (Z.to_nat (hmcSteps params)) with 0%nat by lia.
  cbn [hmc_loop lx ly lpx lpy lgrad trajectory fst snd].
  destruct (xltb _ _); eexists; (split; [reflexivity |]); cbn [rx ry path]; auto.
Qed.

Lemma stepHMC_without_steps_witness :
  exists res,
    stepHMC (mkParams 0.5 1 0 0.1) (LOG_PROBS banana) (GRADIENTS banana)
      (mkPoint 0.1 0.1) ([1/2; 1/4] ++ [1/2; 1/4] ++ [1/2]) = Some (res, [])
    /\ rx res = 0.1 /\ ry res = 0.1
    /\ path res = Some [mkPoint 0.1 0.1].
Proof.
  eapply (stepHMC_without_steps (mkParams 0.5 1 0 0.1) (LOG_PROBS banana)
           (GRADIENTS banana) (mkPoint 0.1 0.1) [1/2; 1/4] [1/2; 1/4] _ _ (1/2) []).
  - cbn [hmcSteps]. lia.
  - apply draws_normal_nonzero; lra.
  - apply draws_normal_nonzero; lra.
Defined.

(** ** All six kernels *)

Lemma hmc_loop_trajectory_length (params : Params) (gradFn : R -> R -> Gradient)
    (n : nat) (i : Z) (s : Leap) :
  length (trajectory (hmc_loop params gradFn n i s)) = (length (trajectory s) + n)%nat.
Proof.
  revert i s. induction n as [| n IH]; intros i s.
  - cbn [hmc_loop]. lia.
  - cbn [hmc_loop]. rewrite IH. cbn [trajectory]. rewrite length_app.
    cbn [length]. lia.
Qed.

(** What each kernel can return. *)
Lemma run_kernel_result (params : Params) (algo : AlgoType) (target : TargetType)
    (curr : Point) (t t' : tape) (r : StepResult) :
  run_kernel params algo target curr t = Some (r, t') ->
  (accepted r = false -> rx r = x curr /\ ry r = y curr)
  /\ match algo with
     | hmc => exists tr, path r = Some tr
                         /\ length tr = S (Z.to_nat (hmcSteps params))
     | slice => path r = None <-> accepted r = false
     | _ => path r = None
     end.
Proof.
  destruct algo; cbn [run_kernel].
  - unfold stepRWM. intros H.
    apply bind_inv in H as (n1 & t1 & _ & H).
    apply bind_inv in H as (n2 & t2 & _ & H).
    apply bind_inv in H as (u & t3 & _ & H).
    destruct (xltb _ _); unfold ret in H; injection H as <- <-;
      cbn [accepted rx ry path rejected]; split; auto; discriminate.
  - unfold stepMH. intros H.
    apply bind_inv in H as (n1 & t1 & _ & H).
    apply bind_inv in H as (n2 & t2 & _ & H).
    apply bind_inv in H as (u & t3 & _ & H).
    destruct (xltb _ _); unfold ret in H; injection H as <- <-;
      cbn [accepted rx ry path rejected]; split; auto; discriminate.
  - unfold stepSlice. intros H.
    apply bind_inv in H as (u & t1 & _ & H).
    apply bind_inv in H as (v & t2 & _ & H).
    apply bind_inv in H as (w & t3 & _ & H).
    apply bind_inv in H as ([res |] & t4 & Hs & H);
      unfold ret in H; injection H as <- <-.
    + apply slice_shrink_accept in Hs as (Ha & _ & (L' & R' & HP)).
      rewrite Ha, HP. split; [discriminate |]. split; discriminate.
    + cbn [accepted rx ry path rejected]. split; auto. split; auto.
  - unfold stepElliptical. intros H.
    apply bind_inv in H as (n1 & t1 & _ & H).
    apply bind_inv in H as (n2 & t2 & _ & H).
    apply bind_inv in H as (u & t3 & _ & H).
    apply bind_inv in H as (v & t4 & _ & H).
    apply bind_inv in H as ([res |] & t5 & Hs & H);
      unfold ret in H; injection H as <- <-.
    + apply elliptical_loop_accept in Hs as (Ha & _ & HP).
      rewrite Ha, HP. split; [discriminate | reflexivity].
    + cbn [accepted rx ry path rejected]. split; auto.
  - unfold stepHitAndRun. intros H.
    apply bind_inv in H as (v & t1 & _ & H).
    apply bind_inv in H as (u & t2 & _ & H).
    apply bind_inv in H as ([res |] & t3 & Hs & H);
      unfold ret in H; injection H as <- <-.
    + apply hitnrun_shrink_accept in Hs as (Ha & _ & HP).
      rewrite Ha, HP. split; [discriminate | reflexivity].
    + cbn [accepted rx ry path rejected]. split; auto.
  - unfold stepHMC. intros H.
    apply bind_inv in H as (n1 & t1 & _ & H).
    apply bind_inv in H as (n2 & t2 & _ & H).
    apply bind_inv in H as (u & t3 & _ & H).
    destruct (xltb _ _); unfold ret in H; injection H as <- <-;
      cbn [accepted rx ry path];
      (split; [auto; discriminate |]);
      (eexists; split; [reflexivity |]);
      rewrite hmc_loop_trajectory_length; cbn [trajectory length]; lia.
Qed.

(** X8. Whatever the kernel and the target, a step that reports
    [accepted = false] returns the point it was started from. *)
Theorem rejected_step_stays (params : Params) (algo : AlgoType)
    (target : TargetType) (curr : Point) (t t' : tape) (r : StepResult) :
  run_kernel params algo target curr t = Some (r, t') ->
  accepted r = false ->
  rx r = x curr /\ ry r = y curr.
Proof.
  intros H. exact (proj1 (run_kernel_result _ _ _ _ _ _ _ H)).
Qed.

Lemma rejected_step_stays_witness :
  exists r,
    run_kernel unit_step hitnrun gaussian (mkPoint 0 0) (0 :: 1/2 :: repeat 0 50)
    = Some (r, [])
    /\ rx r = 0 /\ ry r = 0.
Proof.
  exists (mkResult 0 0 false None).
  pose proof hitnrun_exhausting_run as Hrun.
  split; [exact Hrun |].
  exact (rejected_step_stays unit_step hitnrun gaussian (mkPoint 0 0)
           (0 :: 1/2 :: repeat 0 50) [] (mkResult 0 0 false None) Hrun eq_refl).
Defined.

(** ** The stepping loop, continued *)

Lemma accepted_count_cons (r : StepResult) (rs : list StepResult) :
  accepted_count (r :: rs)
  = ((if accepted r then 1 else 0) + accepted_count rs)%Z.
Proof.
  unfold accepted_count. cbn [filter]. destruct (accepted r); cbn [length]; lia.
Qed.

Lemma accepted_count_bounds (rs : list StepResult) :
  (0 <= accepted_count rs <= Z.of_nat (length rs))%Z.
Proof.
  unfold accepted_count. pose proof (filter_length_le accepted rs). lia.
Qed.

(** The state after the loop, read off the results of the chain. *)
Lemma animate_iter_chain (params : Params) (algo : AlgoType) (target : TargetType)
    (n : nat) (st st' : StateRef) (a a' : Z) (t t' : tape) :
  animate_iter n params algo target (st, a) t = Some ((st', a'), t') ->
  exists rs,
    chain n params algo target (mkPoint (st_x st) (st_y st)) t = Some (rs, t')
    /\ length rs = n
    /\ a' = (a + accepted_count rs)%Z
    /\ (rs = [] -> st' = st)
    /\ (forall front r, rs = front ++ [r] ->
          st_x st' = rx r /\ st_y st' = ry r /\ currentPath st' = path r).
Proof.
  revert st a t. induction n as [| n IH]; intros st a t Hrun.
  - cbn [animate_iter] in Hrun. unfold ret in Hrun. injection Hrun as <- <- <-.
    exists []. cbn [chain]. split; [reflexivity |]. split; [reflexivity |].
    split; [unfold accepted_count; cbn [filter length]; lia |].
    split; [reflexivity |].
    intros front r Hf. destruct front; discriminate.
  - cbn [animate_iter] in Hrun.
    apply bind_inv in Hrun as ([st1 a1] & t1 & Hb & Hrun).
    apply animate_body_inv in Hb as (r & Hr & -> & ->).
    destruct (IH _ _ _ Hrun) as (rs & Hc & Hlen & Ha & Hnil & Hlast).
    cbn [st_x st_y] in Hc.
    exists (r :: rs). cbn [chain].
    rewrite (bind_Some _ _ _ _ _ Hr), (bind_Some _ _ _ _ _ Hc).
    split; [reflexivity |]. split; [cbn [length]; lia |].
    split; [rewrite accepted_count_cons, Ha; destruct (accepted r); lia |].
    split; [discriminate |].
    intros front r' Hf. destruct rs as [| r1 rs1].
    + rewrite (Hnil eq_refl). cbn [st_x st_y currentPath].
      destruct front as [| f front']; [injection Hf as <-; auto |].
      injection Hf as _ Hf. now destruct front'.
    + destruct front as [| f front']; [discriminate |].
      injection Hf as _ Hf. exact (Hlast front' r' Hf).
Qed.

(** X9. The tally of a frame is the number of accepted results among the
    steps it made, so it lies between [0] and the number of steps. *)
Theorem animate_accepts_tally (params : Params) (algo : AlgoType)
    (target : TargetType) (st st' : StateRef) (accepts : Z) (t t' : tape) :
  animate_loop params algo target st t = Some ((st', accepts), t') ->
  exists rs,
    chain (Z.to_nat (stepsPerFrame params)) params algo target
      (mkPoint (st_x st) (st_y st)) t = Some (rs, t')
    /\ accepts = accepted_count rs
    /\ (0 <= accepts <= Z.max 0 (stepsPerFrame params))%Z.
Proof.
  unfold animate_loop. intros H.
  apply animate_iter_chain in H as (rs & Hc & Hlen & Ha & _).
  exists rs. split; [exact Hc |]. split; [lia |].
  pose proof (accepted_count_bounds rs). lia.
Qed.

Lemma animate_accepts_tally_witness :
  exists st' rs,
    animate_loop unit_step hitnrun gaussian reset_state [0; 0; 1/2]
    = Some ((st', 1%Z), [])
    /\ 1%Z = accepted_count rs.
Proof.
  destruct animate_first_step as (st' & Hrun).
  destruct (animate_accepts_tally unit_step hitnrun gaussian reset_state st' 1%Z
              [0; 0; 1/2] [] Hrun) as (rs & _ & Ha & _).
  exists st', rs. split; [exact Hrun | exact Ha].
Defined.

(** X10. After a frame of at least one step the current path is the path of
    the last step: none for random-walk Metropolis, independent
    Metropolis-Hastings, elliptical slice and hit-and-run; for HMC a
    trajectory of [hmcSteps + 1] points ([1] when [hmcSteps <= 0]); for slice
    sampling a path exactly when the newest sample is marked accepted. *)
Theorem animate_current_path (params : Params) (algo : AlgoType)
    (target : TargetType) (n : nat) (st st' : StateRef) (a a' : Z) (t t' : tape) :
  (0 < n)%nat ->
  animate_iter n params algo target (st, a) t = Some ((st', a'), t') ->
  match algo with
  | hmc => exists tr, currentPath st' = Some tr
                      /\ length tr = S (Z.to_nat (hmcSteps params))
  | slice => exists front s, samples st' = front ++ [s]
                             /\ (currentPath st' = None <-> s_accepted s = false)
  | _ => currentPath st' = None
  end.
Proof.
  intros Hn Hrun.
  destruct n as [| n]; [lia |].
  assert (Hlastrun : exists st1 t1 r,
             run_kernel params algo target (mkPoint (st_x st1) (st_y st1)) t1
             = Some (r, t')
             /\ st' = mkStateRef (rx r) (ry r)
                        (push_sample (samples st1) (to_sample r)) (path r)).
  { clear Hn. revert st a t Hrun.
    induction n as [| n IH]; intros st a t Hrun.
    - cbn [animate_iter] in Hrun.
      apply bind_inv in Hrun as ([st1 a1] & t1 & Hb & Hrun).
      unfold ret in Hrun. injection Hrun as <- <- <-.
      apply animate_body_inv in Hb as (r & Hr & -> & _).
      exists st, t, r. split; [exact Hr | reflexivity].
    - change (animate_iter (S (S n)) params algo target (st, a) t)
        with (bind (animate_body params algo target (st, a))
                (fun sa' => animate_iter (S n) params algo target sa') t) in Hrun.
      apply bind_inv in Hrun as ([st1 a1] & t1 & _ & Hrun).
      exact (IH _ _ _ Hrun). }
  destruct Hlastrun as (st1 & t1 & r & Hr & ->).
  apply run_kernel_result in Hr as (_ & Hpath).
  destruct algo; cbn [currentPath samples]; try exact Hpath.
  destruct (push_sample_last (samples st1) (to_sample r)) as (front & Hf).
  exists front, (to_sample r). split; [exact Hf |]. exact Hpath.
Qed.

Lemma animate_current_path_witness :
  exists st',
    animate_iter 1 unit_step hitnrun gaussian (reset_state, 0%Z) [0; 0; 1/2]
    = Some ((st', 1%Z), [])
    /\ currentPath st' = None.
Proof.
  destruct animate_first_step as (st' & Hrun).
  exists st'. split; [exact Hrun |].
  assert (Hn : (0 < 1)%nat) by lia.
  exact (animate_current_path unit_step hitnrun gaussian 1 reset_state st'
           0%Z 1%Z [0; 0; 1/2] [] Hn Hrun).
Defined.

(** ** How far a slice-family step can move *)

Lemma uniform_draws_cons (u : R) (t : tape) :
  uniform_draws (u :: t) -> 0 <= u < 1 /\ uniform_draws t.
Proof.
  intros H. split; [exact (Forall_inv H) | exact (Forall_inv_tail H)].
Qed.

Lemma on_line_distance (cx cy theta d hi : R) :
  - hi <= d <= hi ->
  (cx + d * cos theta - cx) ^ 2 + (cy + d * sin theta - cy) ^ 2 <= hi ^ 2.
Proof.
  intros Hd. pose proof (sin2_cos2 theta) as H. unfold Rsqr in H.
  replace ((cx + d * cos theta - cx) ^ 2 + (cy + d * sin theta - cy) ^ 2)
    with (d * d * (sin theta * sin theta + cos theta * cos theta)) by ring.
  rewrite H. nra.
Qed.

(** The shrink loop of [stepSlice] keeps the current point inside the
    bracket and every candidate between its ends. *)
Lemma slice_shrink_in_bracket (lpFn : R -> R -> R) (current : Point)
    (threshold : xreal) (dx dy lo hi : R) (cap : nat) (L Rb : R)
    (t t' : tape) (res : StepResult) :
  uniform_draws t ->
  lo <= L -> L <= 0 -> 0 <= Rb -> Rb <= hi ->
  slice_shrink lpFn cap current threshold dx dy L Rb t = Some (Some res, t') ->
  exists dist L' R',
    lo <= L' /\ L' <= 0 /\ 0 <= R' /\ R' <= hi /\ L' <= dist <= R'
    /\ rx res = x current + dist * dx /\ ry res = y current + dist * dy
    /\ path res = Some [mkPoint (x current + L' * dx) (y current + L' * dy);
                        mkPoint (x current + R' * dx) (y current + R' * dy)].
Proof.
  revert L Rb t. induction cap as [| n IH]; intros L Rb t Ht HloL HL HR HRhi.
  - cbn [slice_shrink]. unfold ret. discriminate.
  - destruct t as [| u t]; [discriminate |].
    apply uniform_draws_cons in Ht as [Hu Ht].
    cbn [slice_shrink]. unfold bind at 1. rewrite rand_cons.
    set (dist := u * (Rb - L) + L).
    assert (Hd : L <= dist <= Rb) by (unfold dist; nra).
    destruct (xgtb (lpFn (x current + dist * dx) (y current + dist * dy)) threshold).
    + unfold ret. intros H. injection H as <- <-. cbn [rx ry path].
      exists dist, L, Rb. repeat (split; [assumption || lra |]). reflexivity.
    + destruct (Rltb dist 0) eqn:E.
      * apply Rltb_true in E. apply IH; try assumption; lra.
      * apply Rltb_false in E. apply IH; try assumption; lra.
Qed.


(** X12. With a positive step size and draws of [[0, 1)], a slice step that
    accepts returns a point of the line through the current point, between
    the two ends of the bracket it reports as path; the bracket contains the
    current point, and neither end is farther than [101 * stepSize] from it,
    so neither is the new point. *)
Theorem stepSlice_within_reach (params : Params) (lpFn : R -> R -> R)
    (current : Point) (t t' : tape) (res : StepResult) :
  0 < stepSize params ->
  uniform_draws t ->
  stepSlice params lpFn current t = Some (res, t') ->
  accepted res = true ->
  exists theta dist L' R',
    - (101 * stepSize params) <= L' /\ L' <= 0 /\ 0 <= R'
    /\ R' <= 101 * stepSize params /\ L' <= dist <= R'
    /\ rx res = x current + dist * cos theta
    /\ ry res = y current + dist * sin theta
    /\ path res = Some [mkPoint (x current + L' * cos theta)
                                (y current + L' * sin theta);
                        mkPoint (x current + R' * cos theta)
                                (y current + R' * sin theta)]
    /\ (rx res - x current) ^ 2 + (ry res - y current) ^ 2
       <= (101 * stepSize params) ^ 2.
Proof.
  intros Hs Ht Hrun Hacc.
  destruct t as [| u [| v [| w rest]]]; try discriminate.
  apply uniform_draws_cons in Ht as [Hu Ht].
  apply uniform_draws_cons in Ht as [Hv Ht].
  apply uniform_draws_cons in Ht as [Hw Ht].
  rewrite stepSlice_unfold in Hrun. cbv zeta in Hrun.
  set (threshold := xadd (lpFn (x current) (y current)) (Math_log u)) in Hrun.
  set (theta := v * PI2) in Hrun.
  destruct (slice_expand_L_bounded params lpFn current threshold
              (cos theta) (sin theta) 100 (- w * stepSize params))
    as (kl & Hkl & HL).
  destruct (slice_expand_R_bounded params lpFn current threshold
              (cos theta) (sin theta) 100 (- w * stepSize params + stepSize params))
    as (kr & Hkr & HR).
  rewrite HL, HR in Hrun.
  assert (H100 : INR 100 = 100) by (simpl; lra).
  assert (Hkl' : 0 <= INR kl <= 100).
  { split; [apply pos_INR |]. rewrite <- H100. now apply le_INR. }
  assert (Hkr' : 0 <= INR kr <= 100).
  { split; [apply pos_INR |]. rewrite <- H100. now apply le_INR. }
  destruct (slice_shrink lpFn 100 current threshold (cos theta) (sin theta) _ _ rest)
    as [[[r |] t1] |] eqn:Hsh; [| | discriminate].
  - injection Hrun as <- <-.
    apply (slice_shrink_in_bracket lpFn current threshold (cos theta) (sin theta)
             (- (101 * stepSize params)) (101 * stepSize params)) in Hsh;
      [| exact Ht | nra | nra | nra | nra].
    destruct Hsh as (dist & L' & R' & H1 & H2 & H3 & H4 & H5 & Hx & Hy & HP).
    exists theta, dist, L', R'.
    repeat (split; [assumption |]).
    rewrite Hx, Hy. apply on_line_distance. lra.
  - injection Hrun as <- <-. discriminate.
Qed.

Lemma uniform_draws_sample : uniform_draws [0; 0; 1/2; 1/2] /\ uniform_draws [0; 0; 1/2].
Proof. split; repeat constructor; lra. Qed.

Lemma stepSlice_within_reach_witness :
  exists res,
    stepSlice unit_step (LOG_PROBS gaussian) (mkPoint 0.1 0.1) [0; 0; 1/2; 1/2]
    = Some (res, [])
    /\ (rx res - 0.1) ^ 2 + (ry res - 0.1) ^ 2 <= (101 * 1) ^ 2.
Proof.
  destruct slice_accepting_run as (res & Hrun & Hacc).
  exists res. split; [exact Hrun |].
  assert (Hs : 0 < stepSize unit_step) by (cbn [stepSize unit_step]; lra).
  destruct (stepSlice_within_reach unit_step (LOG_PROBS gaussian) (mkPoint 0.1 0.1)
              [0; 0; 1/2; 1/2] [] res Hs (proj1 uniform_draws_sample) Hrun Hacc)
    as (theta & dist & L' & R' & _ & _ & _ & _ & _ & _ & _ & _ & Hd).
  exact Hd.
Defined.



Lemma elliptical_loop_on_ellipse (lpFn : R -> R -> R) (current : Point)
    (threshold : xreal) (nuX nuY : R) (cap : nat) (theta thetaMin thetaMax : R)
    (t t' : tape) (res : StepResult) :
  elliptical_loop lpFn cap current threshold nuX nuY theta thetaMin thetaMax t
  = Some (Some res, t') ->
  exists angle,
    rx res = x current * cos angle + nuX * sin angle
    /\ ry res = y current * cos angle + nuY * sin angle.
Proof.
  revert theta thetaMin thetaMax t.
  induction cap as [| n IH]; intros theta thetaMin thetaMax t.
  - cbn [elliptical_loop]. unfold ret. discriminate.
  - cbn [elliptical_loop].
    destruct (xgtb _ threshold).
    + unfold ret. intros H. injection H as <- <-. cbn [rx ry]. now exists theta.
    + destruct t as [| u t]; [discriminate |].
      unfold bind at 1. rewrite rand_cons. apply IH.
Qed.

Lemma ellipse_bound (a b angle : R) :
  (a * cos angle + b * sin angle) ^ 2 <= a ^ 2 + b ^ 2.
Proof.
  pose proof (sin2_cos2 angle) as H. unfold Rsqr in H.
  assert (Hid : (a * cos angle + b * sin angle) ^ 2
                + (a * sin angle - b * cos angle) ^ 2
                = (a ^ 2 + b ^ 2) * (sin angle * sin angle + cos angle * cos angle))
    by ring.
  rewrite H in Hid. pose proof (pow2_ge_0 (a * sin angle - b * cos angle)). lra.
Qed.

(** X14. An elliptical-slice step that accepts returns a point of the
    ellipse through the current point and the auxiliary normal vector
    [(nuX, nuY)]: each coordinate is [current * cos a + nu * sin a] for one
    angle [a], so its square is at most [current^2 + nu^2]. *)
Theorem stepElliptical_on_ellipse (lpFn : R -> R -> R) (current : Point)
    (pre1 pre2 : tape) (nuX nuY : R) (t t' : tape) (res : StepResult) :
  draws_normal pre1 nuX ->
  draws_normal pre2 nuY ->
  stepElliptical lpFn current (pre1 ++ pre2 ++ t) = Some (res, t') ->
  accepted res = true ->
  exists angle,
    rx res = x current * cos angle + nuX * sin angle
    /\ ry res = y current * cos angle + nuY * sin angle
    /\ rx res ^ 2 <= x current ^ 2 + nuX ^ 2
    /\ ry res ^ 2 <= y current ^ 2 + nuY ^ 2.
Proof.
  intros H1 H2 Hrun Hacc. unfold stepElliptical in Hrun.
  rewrite (bind_Some _ _ _ _ _ (H1 _)), (bind_Some _ _ _ _ _ (H2 _)) in Hrun.
  apply bind_inv in Hrun as (u & t1 & _ & Hrun).
  apply bind_inv in Hrun as (v & t2 & _ & Hrun).
  apply bind_inv in Hrun as ([r |] & t3 & Hloop & Hrun);
    unfold ret in Hrun; injection Hrun as <- <-.
  - apply elliptical_loop_on_ellipse in Hloop as (angle & Hx & Hy).
    exists angle. split; [exact Hx |]. split; [exact Hy |].
    rewrite Hx, Hy. split; apply ellipse_bound.
  - discriminate.
Qed.

Lemma stepElliptical_on_ellipse_witness :
  exists res,
    stepElliptical (LOG_PROBS gaussian) (mkPoint 0.1 0.1)
      ([1/2; 1/4] ++ [1/2; 1/4] ++ [0; 0]) = Some (res, [])
    /\ rx res ^ 2 <= 0.1 ^ 2 + (sqrt (-2.0 * ln (1/2)) * cos (2.0 * PI * (1/4))) ^ 2.
Proof.
  assert (H : draws_normal [1/2; 1/4]
                (sqrt (-2.0 * ln (1/2)) * cos (2.0 * PI * (1/4)))).
  { apply draws_normal_nonzero; lra. }
  assert (Hrun : exists res,
             stepElliptical (LOG_PROBS gaussian) (mkPoint 0.1 0.1)
               ([1/2; 1/4] ++ [1/2; 1/4] ++ [0; 0]) = Some (res, [])
             /\ accepted res = true).
  { rewrite (stepElliptical_unfold _ _ _ _ _ _ 0 0 [] H H). cbv zeta.
    rewrite Math_log_0. cbn [xadd elliptical_loop xgtb xltb]. unfold ret.
    eexists. split; reflexivity. }
  destruct Hrun as (res & Hrun & Hacc).
  exists res. split; [exact Hrun |].
  destruct (stepElliptical_on_ellipse (LOG_PROBS gaussian) (mkPoint 0.1 0.1)
              [1/2; 1/4] [1/2; 1/4] _ _ [0; 0] [] res H H Hrun Hacc)
    as (angle & _ & _ & Hb & _).
  exact Hb.
Defined.

(** ** Canvas geometry and the density image *)

(** X15. On a canvas of non-zero width the drawing of samples and the
    density image use the same map between the plane and the pixels: the
    point that [drawBackground] evaluates for a pixel is drawn by [toCanvas]
    on that pixel, and the pixel of a point is evaluated at that point. *)
Theorem canvas_round_trip (width a b : R) :
  width <> 0 ->
  (let '(px, py) := pixel_point width a b in toCanvas width px py = (a, b))
  /\ (let '(cx, cy) := toCanvas width a b in pixel_point width cx cy = (a, b)).
Proof.
  intros Hw. unfold pixel_point, toCanvas, canvas_scale, canvas_offset.
  split; apply (f_equal2 pair); field; exact Hw.
Qed.

Lemma canvas_round_trip_witness :
  toCanvas 600 ((120 - 600 / 2) / (600 / 10)) (- ((450 - 600 / 2) / (600 / 10)))
  = (120, 450).
Proof.
  assert (Hw : 600 <> 0) by lra.
  exact (proj1 (canvas_round_trip 600 120 450 Hw)).
Defined.

(** X16. For a pixel inside a [width] x [height] image the four bytes at
    [pixel_index .. pixel_index + 3] lie inside the buffer of
    [width * height * 4] bytes, and the blocks of two different pixels do
    not overlap. *)
Theorem pixel_index_in_buffer (width height px py px' py' : Z) :
  (0 <= px < width)%Z -> (0 <= py < height)%Z ->
  (0 <= px' < width)%Z -> (0 <= py' < height)%Z ->
  (0 <= pixel_index width px py)%Z
  /\ (pixel_index width px py + 3 < width * height * 4)%Z
  /\ ((px, py) <> (px', py') ->
      (pixel_index width px py + 3 < pixel_index width px' py')%Z
      \/ (pixel_index width px' py' + 3 < pixel_index width px py)%Z).
Proof.
  intros Hx Hy Hx' Hy'. unfold pixel_index. split; [nia |]. split; [nia |].
  intros Hne.
  destruct (Z.lt_trichotomy py py') as [Hlt | [-> | Hgt]].
  - left. nia.
  - destruct (Z.lt_trichotomy px px') as [Hlt | [-> | Hgt]].
    + left. lia.
    + now contradiction Hne.
    + right. lia.
  - right. nia.
Qed.

Lemma pixel_index_in_buffer_witness :
  (0 <= pixel_index 600 599 599)%Z
  /\ (pixel_index 600 599 599 + 3 < 600 * 600 * 4)%Z.
Proof.
  assert (Hlast : (0 <= 599 < 600)%Z) by lia.
  assert (Hfirst : (0 <= 0 < 600)%Z) by lia.
  destruct (pixel_index_in_buffer 600 600 599 599 0 0 Hlast Hlast Hfirst Hfirst)
    as (H1 & H2 & _).
  split; assumption.
Defined.

Lemma Math_floor_spec (r : R) :
  Math_floor r <= r < Math_floor r + 1.
Proof.
  unfold Math_floor. destruct (base_Int_part r) as [H1 H2]. lra.
Qed.

Lemma Math_floor_ge (r : R) (k : Z) : IZR k <= r -> IZR k <= Math_floor r.
Proof.
  intros H. destruct (Math_floor_spec r) as [_ H2]. unfold Math_floor in *.
  assert (Hlt : IZR k < IZR (Int_part r + 1)) by (rewrite plus_IZR; lra).
  apply lt_IZR in Hlt. apply IZR_le. lia.
Qed.

(** X17. The intensity of a pixel is a whole number between 0 and 255, and
    it is 255 exactly when the density is at least [255 / 2000]; the red and
    green values computed from it never leave the byte range, the blue value
    exceeds 255 exactly when the intensity is above 205, and alpha is 255. *)
Theorem pixel_intensity_range (target : TargetType) (a b : R) :
  let i := pixel_intensity target a b in
  (exists k : Z, (0 <= k <= 255)%Z /\ i = IZR k)
  /\ (i = 255 <-> 255 / 2000 <= exp (LOG_PROBS target a b))
  /\ (let '(red, green, blue, alpha) := pixel_rgba i in
      30 <= red <= 157.5 /\ 40 <= green <= 244
      /\ (255 < blue <-> 205 < i) /\ alpha = 255).
Proof.
  intros i. unfold pixel_intensity in i. cbv zeta in i.
  set (p := exp (LOG_PROBS target a b)) in *.
  assert (Hp : 0 < p) by apply exp_pos.
  pose proof (Math_floor_spec (p * 2000)) as [Hf1 Hf2].
  assert (Hf0 : 0 <= Math_floor (p * 2000)).
  { apply (Math_floor_ge (p * 2000) 0). lra. }
  assert (Hk : exists k : Z, (0 <= k <= 255)%Z /\ i = IZR k).
  { unfold i, Rmin. destruct (Rle_dec 255 (Math_floor (p * 2000))) as [Hle | Hgt].
    - exists 255%Z. split; [lia | reflexivity].
    - exists (Int_part (p * 2000)). unfold Math_floor in *. split; [| reflexivity].
      split; [apply le_IZR; lra |]. apply le_IZR. lra. }
  assert (Hsat : i = 255 <-> 255 / 2000 <= p).
  { unfold i, Rmin. destruct (Rle_dec 255 (Math_floor (p * 2000))) as [Hle | Hgt].
    - split; [intros _; lra | reflexivity].
    - split; [intros E; lra |]. intros Hge. exfalso. apply Hgt.
      apply (Math_floor_ge (p * 2000) 255). lra. }
  split; [exact Hk |]. split; [exact Hsat |].
  destruct Hk as (k & [Hk0 Hk1] & Hi).
  apply IZR_le in Hk0, Hk1. rewrite <- Hi in Hk0, Hk1.
  unfold pixel_rgba. repeat split; lra.
Qed.

(** ** The catalog of targets *)



(** X19. The gaussian and donut log-densities depend on a point only
    through its distance from the origin; the bimodal log-density is the same
    at [(-x, -y)] and at [(y, x)] as at [(x, y)]. *)
Theorem catalog_symmetries (a b a' b' : R) :
  (a * a + b * b = a' * a' + b' * b' ->
   LOG_PROBS gaussian a b = LOG_PROBS gaussian a' b'
   /\ LOG_PROBS donut a b = LOG_PROBS donut a' b')
  /\ LOG_PROBS bimodal (- a) (- b) = LOG_PROBS bimodal a b
  /\ LOG_PROBS bimodal b a = LOG_PROBS bimodal a b.
Proof.
  split; [| split].
  - intros H. cbn [LOG_PROBS]. cbv zeta. now rewrite H.
  - cbn [LOG_PROBS]. cbv zeta.
    replace (- ((- a + 1.5) ^ 2 + (- b + 1.5) ^ 2) * 2)
      with (- ((a - 1.5) ^ 2 + (b - 1.5) ^ 2) * 2) by ring.
    replace (- ((- a - 1.5) ^ 2 + (- b - 1.5) ^ 2) * 2)
      with (- ((a + 1.5) ^ 2 + (b + 1.5) ^ 2) * 2) by ring.
    f_equal. ring.
  - cbn [LOG_PROBS]. cbv zeta.
    replace (- ((b + 1.5) ^ 2 + (a + 1.5) ^ 2) * 2)
      with (- ((a + 1.5) ^ 2 + (b + 1.5) ^ 2) * 2) by ring.
    replace (- ((b - 1.5) ^ 2 + (a - 1.5) ^ 2) * 2)
      with (- ((a - 1.5) ^ 2 + (b - 1.5) ^ 2) * 2) by ring.
    reflexivity.
Qed.

Lemma catalog_symmetries_witness :
  LOG_PROBS gaussian 3 4 = LOG_PROBS gaussian 5 0
  /\ LOG_PROBS donut 3 4 = LOG_PROBS donut 5 0.
Proof.
  apply (proj1 (catalog_symmetries 3 4 5 0)). lra.
Defined.

(** X20. Where the supplied gradients vanish: the gaussian gradient only at
    the origin, the banana gradient only at [(1, 1)], and the donut gradient
    at the origin and on the circle of radius [2.5 - 1e-9], just inside the
    ring of the log-density, because of the guard on the radius. *)
Theorem catalog_critical_points (a b : R) :
  (GRADIENTS gaussian a b = mkGradient 0 0 <-> a = 0 /\ b = 0)
  /\ (GRADIENTS banana a b = mkGradient 0 0 <-> a = 1 /\ b = 1)
  /\ (GRADIENTS donut a b = mkGradient 0 0 <->
      (a = 0 /\ b = 0) \/ sqrt (a * a + b * b) = 2.5 - 1e-9).
Proof.
  split; [| split].
  - cbn [GRADIENTS]. split.
    + intros H. injection H as H1 H2. split; lra.
    + intros [-> ->]. f_equal; lra.
  - cbn [GRADIENTS]. cbv zeta. split.
    + intros H. injection H as H1 H2.
      assert (Hb : b - a * a = 0) by lra.
      rewrite Hb in H1. split; nra.
    + intros [-> ->]. f_equal; lra.
  - cbn [GRADIENTS]. cbv zeta.
    pose proof (sqrt_pos (a * a + b * b)) as Hr.
    set (r := sqrt (a * a + b * b)) in *.
    assert (Hr' : r + 1e-9 <> 0) by lra.
    split.
    + intros H. injection H as H1 H2.
      apply Rmult_integral in H1. apply Rmult_integral in H2.
      destruct H1 as [H1 | H1]; [right; lra |].
      destruct H2 as [H2 | H2]; [right; lra |].
      left. split.
      * replace a with (a / (r + 1e-9) * (r + 1e-9)) by (field; lra).
        rewrite H1. ring.
      * replace b with (b / (r + 1e-9) * (r + 1e-9)) by (field; lra).
        rewrite H2. ring.
    + intros [[-> ->] | H].
      * unfold Rdiv. rewrite !Rmult_0_l, !Rmult_0_r. reflexivity.
      * replace (-4 * (r + 1e-9 - 2.5)) with 0 by lra.
        rewrite !Rmult_0_l. reflexivity.
Qed.
